(** * Snowflake: a shallow embedding of the ID generator and its base-54 codec

    The development follows the Go package [snowflake]:
    - [snowflake.go]: the bit layout, [SetMachineId], [Generate], the
      accessors [Time], [MachineId], [MachineSequence], [String], [Parse]
      and [MarshalJSON];
    - the codec file: [alphabet], [decodeMap], [initDecodeMap], [base54]
      and [decode54];
    - the region file: [continents] and [getContinentCode];
    - [errors.go]: the error values.

    Go's [int64] is modelled as [Z] with the two's-complement wrap-around
    written out ([int64_wrap]); a Go [byte] is an [ascii]; a Go [string] is a
    [string] and a [[]byte] a [list ascii]. Code that can panic, or that can
    spin on the clock, returns an [outcome]. *)

From Stdlib Require Import ZArith Lia Ascii String.
From stdpp Require Import base numbers list strings sorting.

Local Open Scope Z_scope.

(** ** Outcomes of code that may panic or wait *)

Inductive outcome (A : Type) : Type :=
  | Ret (a : A)      (* the call returns [a] *)
  | Panic            (* the call panics *)
  | OutOfFuel.       (* the model's fuel, or its clock trace, ran out *)
Arguments Ret {A} a.
Arguments Panic {A}.
Arguments OutOfFuel {A}.

Definition obind {A B : Type} (m : outcome A) (k : A -> outcome B) : outcome B :=
  match m with
  | Ret a => k a
  | Panic => Panic
  | OutOfFuel => OutOfFuel
  end.

Notation "'do' x <- m ;; k" := (obind m (fun x => k))
  (at level 10, x pattern, m at level 99, k at level 200,
   format "'[v' 'do'  x  <-  m  ;;  '/' k ']'").

(** ** Machine integers and bytes *)

(** The value a 64-bit two's-complement register holds after an operation
    whose mathematical result is [z]. *)
Definition int64_wrap (z : Z) : Z := (z + 2 ^ 63) mod 2 ^ 64 - 2 ^ 63.

(** The values of Go's [int64]. *)
Definition is_int64 (z : Z) : Prop := - 2 ^ 63 <= z < 2 ^ 63.

Definition byte : Type := ascii.

(** [int64(c)] for a byte [c]. *)
Definition byte_to_Z (c : byte) : Z := Z.of_N (N_of_ascii c).

(** [byte(i)]: the low eight bits of [i]. *)
Definition byte_of_Z (i : Z) : byte := ascii_of_N (Z.to_N (i mod 256)).

Definition xFF : byte := byte_of_Z 255.

#[global] Instance byte_inhabited : Inhabited byte := populate zero.

(** Indexing [l[i]] with Go's bounds check. *)
Definition index {A : Type} (l : list A) (i : Z) : outcome A :=
  if decide (0 <= i)
  then match l !! Z.to_nat i with Some a => Ret a | None => Panic end
  else Panic.

(** The assignment [l[i] = x] with Go's bounds check. *)
Definition store {A : Type} (l : list A) (i : Z) (x : A) : outcome (list A) :=
  if decide (0 <= i < Z.of_nat (length l))
  then Ret (<[Z.to_nat i := x]> l)
  else Panic.

(** The slice expression [l[i:]] with Go's bounds check. *)
Definition slice_from {A : Type} (l : list A) (i : Z) : outcome (list A) :=
  if decide (0 <= i <= Z.of_nat (length l))
  then Ret (drop (Z.to_nat i) l)
  else Panic.

(** The slice expression [l[lo:hi]] with Go's bounds check. *)
Definition slice {A : Type} (l : list A) (lo hi : Z) : outcome (list A) :=
  if decide (0 <= lo <= hi /\ hi <= Z.of_nat (length l))
  then Ret (take (Z.to_nat (hi - lo)) (drop (Z.to_nat lo) l))
  else Panic.

(** The conversion [[]byte(s)]. *)
Definition bytes (s : string) : list byte := list_ascii_of_string s.

(** ** errors.go *)

Record SnowflakeError : Type := mkError { Code : Z; Message : string }.

Definition error : Type := option SnowflakeError.

Definition ErrorInvalid : SnowflakeError := mkError 0 "invalid id".
Definition ErrorInvalidByte : SnowflakeError := mkError 1 "invalid byte detected".
Definition ErrorInvalidJson : SnowflakeError := mkError 2 "invalid json format".
Definition ErrorEncodeMapLength : SnowflakeError :=
  mkError 256 "encode map is not long enough".

(** ** snowflake.go: constants *)

Definition ID : Type := Z.

Definition Invalid : ID := -1.

Definition Epoch : Z := 1577836801000.

Definition bitsTimestamp : Z := 42.
Definition bitsMachineID : Z := 9.
Definition bitsMachineSequence : Z := 12.

(** [init] computes the two masks as [int64(math.Pow(2, bits)) - 1]; both
    powers are exact in floating point. *)
Definition bitMapMachineId : Z := 2 ^ bitsMachineID - 1.
Definition bitMapMachineSequence : Z := 2 ^ bitsMachineSequence - 1.

(** ** The codec: alphabet and decode table *)

Definition alphabet_string : string :=
  "g82FcYyTeUr0vsn1Jb9NmLMPuHGhVztRp4f3jDk5Zd6ECaw7AWQKXx".

(** The alphabet as the sequence of its bytes, which is what [alphabet[i]]
    and [len(alphabet)] read. *)
Definition alphabet : list byte := bytes alphabet_string.

(** [initDecodeMap]: every entry is first marked [0xFF], then each alphabet
    byte is mapped to its position. *)
Definition initDecodeMap (decodeMap : list byte) : list byte :=
  let marked :=
    foldl (fun m i => <[i := xFF]> m) decodeMap (seq 0 (length decodeMap)) in
  foldl (fun m i => <[nat_of_ascii (alphabet !!! i) := byte_of_Z (Z.of_nat i)]> m)
        marked (seq 0 (length alphabet)).

(** [var decodeMap [256]byte] after [init] has run. *)
Definition decodeMap : list byte :=
  Eval vm_compute in initDecodeMap (replicate 256 zero).

(** [decodeMap[c]] for a byte [c]; the index is always within the array. *)
Definition decodeMap_at (c : byte) : byte := decodeMap !!! nat_of_ascii c.

(** ** The codec: [base54] *)

(** The loop [for id >= 54 { b[i] = alphabet[id%54]; id /= 54; i-- }].
    [i] stays between -1 and 10, so its decrement cannot wrap; a quotient
    and a remainder by 54 cannot overflow either. *)
Fixpoint base54_loop (fuel : nat) (b : list byte) (i : Z) (id : Z)
  : outcome (list byte * Z * Z) :=
  if decide (id >= 54) then
    match fuel with
    | O => OutOfFuel
    | S fuel' =>
        do c <- index alphabet (Z.rem id 54) ;;
        do b' <- store b i c ;;
        base54_loop fuel' b' (i - 1) (Z.quot id 54)
    end
  else Ret (b, i, id).

Definition base54_fuel (fuel : nat) (id : ID) : outcome (string * error) :=
  if decide (id < 0) then Ret (EmptyString, Some ErrorInvalid)
  else if decide (id < 54) then
    do c <- index alphabet id ;;
    Ret (string_of_list_ascii [c], None)
  else
    do (b, i, id') <- base54_loop fuel (replicate 11 zero) 10 id ;;
    do c <- index alphabet id' ;;
    do b' <- store b i c ;;
    do s <- slice_from b' i ;;
    Ret (string_of_list_ascii s, None).

(** Each iteration of the loop writes one of the eleven bytes of [b] and a
    twelfth would panic on [b[-1]], so twelve units of fuel are never used
    up (lemma [base54_fuel_enough]). *)
Definition base54 (id : ID) : outcome (string * error) := base54_fuel 12 id.

(** ** The codec: [decode54] *)

(** The loop of [decode54]: [None] when an invalid byte is met, otherwise
    the accumulated 64-bit value. *)
Fixpoint decode54_loop (b : list byte) (id : Z) : option Z :=
  match b with
  | [] => Some id
  | c :: b' =>
      if decide (decodeMap_at c = xFF) then None
      else decode54_loop b' (int64_wrap (int64_wrap (id * 54) + byte_to_Z (decodeMap_at c)))
  end.

Definition decode54 (b : list byte) : ID * error :=
  match decode54_loop b 0 with
  | None => (Invalid, Some ErrorInvalidByte)
  | Some id =>
      if decide (id < 0) then (Invalid, Some ErrorInvalid) else (id, None)
  end.

Definition Parse (input : string) : ID * error :=
  decode54 (bytes input).

(** [String]: the encoding, or the empty string when [base54] fails. *)
Definition String_ (id : ID) : outcome string :=
  do (encoded, err) <- base54 id ;;
  match err with
  | Some _ => Ret EmptyString
  | None => Ret encoded
  end.


(** ** JSON marshalling *)

(** The double quote, byte 34. *)
Definition quote : byte := byte_of_Z 34.

Section Marshal.

(** [encoding/json]'s [Marshal], applied to a Go string: the encoded bytes
    and an error. It belongs to Go's standard library. *)
Variable json_Marshal : string -> list byte * error.

Definition MarshalJSON (id : ID) : outcome (list byte * error) :=
  do s <- String_ id ;;
  Ret (json_Marshal s).

End Marshal.

(** [UnmarshalJSON]. [id0] is the value the receiver [*id] holds before the
    call; the result is the value it holds afterwards and the error
    returned. The three tests of the guard are evaluated left to right and
    stop at the first that holds, as [||] does. *)
Definition UnmarshalJSON (id0 : ID) (b : list byte) : outcome (ID * error) :=
  let n := Z.of_nat (length b) in
  if decide (n < 3) then Ret (Invalid, Some ErrorInvalidJson)
  else
    do first <- index b 0 ;;
    if decide (first <> quote) then Ret (Invalid, Some ErrorInvalidJson)
    else
      do last <- index b (n - 1) ;;
      if decide (last <> quote) then Ret (Invalid, Some ErrorInvalidJson)
      else
        do inner <- slice b 1 (n - 1) ;;
        match Parse (string_of_list_ascii inner) with
        | (_, Some err) => Ret (id0, Some err)
        | (parsed, None) => Ret (parsed, None)
        end.

(** What [json.Marshal] does with a string none of whose bytes needs an
    escape, which is the case of every string over the alphabet and of the
    empty string: the bytes between two double quotes, and no error. *)
Definition json_Marshal_plain (s : string) : list byte * error :=
  (quote :: bytes s ++ [quote], None).

(** ** The region table *)

Definition continents : list (list string) :=
  [ (* Asia *)
    ["bom"; "hkg"; "nrt"; "sin"];
    (* Africa *)
    ["jnb"];
    (* North America *)
    ["atl"; "bos"; "den"; "dfw"; "ewr"; "iad"; "lax"; "mia"; "ord"; "phx";
     "sea"; "sjc"; "yul"; "yyz"];
    (* South America *)
    ["bog"; "eze"; "gdl"; "gig"; "gru"; "qro"; "scl"];
    (* Antarctica *)
    [];
    (* Europe *)
    ["ams"; "arn"; "cdg"; "fra"; "lhr"; "mad"; "otp"; "waw"];
    (* Australia / Oceania *)
    ["syd"] ]%string.

(** The inner loop of [getContinentCode]: is [region] listed in this row? *)
Fixpoint region_in (row : list string) (region : string) : bool :=
  match row with
  | [] => false
  | r :: row' => if decide (r = region) then true else region_in row' region
  end.

(** The outer loop of [getContinentCode], from row [i] on. *)
Fixpoint getContinentCode_from (rows : list (list string)) (i : Z)
    (region : string) : Z :=
  match rows with
  | [] => -1
  | row :: rows' =>
      if region_in row region then i
      else getContinentCode_from rows' (i + 1) region
  end.

Definition getContinentCode (region : string) : Z :=
  getContinentCode_from continents 0 region.

(** ** The generator *)

(** The package-level variables that [Generate] reads and writes. *)
Record generator : Type := mkGenerator {
  machineId : Z;
  machineSequence : Z;
  previous : Z
}.

(** The variables as Go initialises them. *)
Definition generator_init : generator :=
  {| machineId := 0; machineSequence := 0; previous := 0 |}.

(** [SetMachineId]; [maxMachineNumber] is [int64(math.Pow(2, 6))]. *)
Definition SetMachineId (region : string) (index : Z) (g : generator)
  : outcome generator :=
  let continent := getContinentCode region in
  let maxMachineNumber := 2 ^ (bitsMachineID - 3) in
  if decide (continent < 0 \/ index < 0 \/ index >= maxMachineNumber) then Panic
  else
    Ret {| machineId :=
             Z.lor (int64_wrap (Z.shiftl (Z.land continent 7) (bitsMachineID - 3)))
                   (Z.land index (int64_wrap (maxMachineNumber - 1)));
           machineSequence := machineSequence g;
           previous := previous g |}.

(** The clock is the sequence of values that successive evaluations of
    [time.Since(epoch).Milliseconds()] return; a call consumes the readings
    it takes and hands the rest on. When the sequence ends while a call
    still needs a reading, the result is [OutOfFuel]: the call has not
    returned within the stretch of time the sequence describes. *)
Definition clock : Type := list Z.

(** The wait [for now <= previous { now = time.Since(epoch).Milliseconds() }]. *)
Fixpoint spin (prev : Z) (now : Z) (readings : clock) : outcome (Z * clock) :=
  if decide (now <= prev) then
    match readings with
    | [] => OutOfFuel
    | t :: readings' => spin prev t readings'
    end
  else Ret (now, readings).

(** The expression [now<<(bitsMachineID+bitsMachineSequence) |
    (machineId << bitsMachineSequence) | machineSequence] that [Generate]
    returns; each shift is a 64-bit shift. *)
Definition pack (t m s : Z) : ID :=
  Z.lor (Z.lor (int64_wrap (Z.shiftl t (bitsMachineID + bitsMachineSequence)))
               (int64_wrap (Z.shiftl m bitsMachineSequence)))
        s.

(** The tail of [Generate]: increment the sequence, record the timestamp,
    assemble the ID. [seq0] is the sequence number the branches above
    leave behind. *)
Definition assemble (g : generator) (now : Z) (seq0 : Z) : ID * generator :=
  let seq1 := Z.land (int64_wrap (seq0 + 1)) bitMapMachineSequence in
  (pack now (machineId g) seq1,
   {| machineId := machineId g; machineSequence := seq1; previous := now |}).

Definition Generate (g : generator) (readings : clock)
  : outcome (ID * generator * clock) :=
  match readings with
  | [] => OutOfFuel
  | now :: readings =>
      if decide (now = previous g /\ machineSequence g = bitMapMachineSequence) then
        do (now', readings') <- spin (previous g) now readings ;;
        Ret (assemble g now' (machineSequence g), readings')
      else if decide (now > previous g) then
        Ret (assemble g now (-1), readings)
      else if decide (now < previous g) then Panic
      else Ret (assemble g now (machineSequence g), readings)
  end.

(** [n] calls of [Generate] in sequence, with the IDs in call order. *)
Fixpoint Generate_n (n : nat) (g : generator) (readings : clock)
  : outcome (list ID * generator * clock) :=
  match n with
  | O => Ret ([], g, readings)
  | S n' =>
      do (id, g', readings') <- Generate g readings ;;
      do (ids, g'', readings'') <- Generate_n n' g' readings' ;;
      Ret (id :: ids, g'', readings'')
  end.

(** How often the clock is seen to move past [prev] and past every earlier
    reading. *)
Fixpoint advances (prev : Z) (readings : clock) : nat :=
  match readings with
  | [] => O
  | t :: readings' =>
      if decide (prev < t) then S (advances t readings')
      else advances prev readings'
  end.

(** ** Accessors *)

Definition Time (id : ID) : Z :=
  int64_wrap (Z.shiftr id (bitsMachineID + bitsMachineSequence) + Epoch).

Definition MachineId (id : ID) : Z :=
  Z.land (Z.shiftr id bitsMachineSequence) bitMapMachineId.

Definition MachineSequence (id : ID) : Z :=
  Z.land id bitMapMachineSequence.

(** ** Vocabulary of the statements *)

(** The position of [c] in [l], or [length l] when it does not occur. *)
Fixpoint position (l : list byte) (c : byte) : Z :=
  match l with
  | [] => 0
  | x :: l' => if decide (x = c) then 0 else 1 + position l' c
  end.

(** The check that the entry of [decodeMap] for [c] is the one the
    alphabet calls for. *)
Definition decodeMap_ok (c : byte) : bool :=
  if decide (c ∈ alphabet)
  then bool_decide (byte_to_Z (decodeMap_at c) = position alphabet c
                    /\ 0 <= position alphabet c < 54
                    /\ alphabet !! Z.to_nat (position alphabet c) = Some c
                    /\ decodeMap_at c <> xFF)
  else bool_decide (decodeMap_at c = xFF).

(** One step of Horner's rule over the alphabet positions. *)
Definition horner (acc : Z) (c : byte) : Z := acc * 54 + position alphabet c.

(** The number a string denotes in base 54, most significant symbol first. *)
Definition numeric_value (s : list byte) : Z := foldl horner 0 s.

(** The symbol at position 0. *)
Definition zero_symbol : byte := "g"%char.

(** A string is canonical when it is a single symbol or starts with a
    symbol other than [zero_symbol]. *)
Definition canonical (s : list byte) : Prop :=
  match s with
  | [] => False
  | [_] => True
  | c :: _ => c <> zero_symbol
  end.

(** The values the 42-bit timestamp field can hold. *)
Definition timestamp_ok (t : Z) : Prop := 0 <= t < 2 ^ bitsTimestamp.

(** The ID built from the timestamp and the sequence number last used. *)
Definition last_id (g : generator) : ID :=
  pack (previous g) (machineId g) (machineSequence g).

(** What a run of calls relies on: a configured machine identifier, a
    sequence number and a last timestamp within their fields, and a clock
    that never runs backwards. *)
Definition gen_inv (g : generator) (readings : clock) : Prop :=
  0 <= machineId g < 512
  /\ 0 <= machineSequence g < 4096
  /\ timestamp_ok (previous g)
  /\ StronglySorted Z.le readings
  /\ Forall (fun t => previous g <= t /\ timestamp_ok t) readings.

(** The generator states a process can be in. *)
Inductive reachable : generator -> Prop :=
  | reachable_init : reachable generator_init
  | reachable_set region index g g' :
      reachable g -> SetMachineId region index g = Ret g' -> reachable g'
  | reachable_generate g readings id g' rest :
      reachable g -> Generate g readings = Ret (id, g', rest) -> reachable g'.

(** * Lemmas *)

(** ** Wrap-around *)

Lemma int64_wrap_id z : is_int64 z -> int64_wrap z = z.
Proof.
  unfold is_int64, int64_wrap. intros H.
  rewrite Z.mod_small by lia. lia.
Qed.

Lemma int64_wrap_range z : is_int64 (int64_wrap z).
Proof.
  unfold is_int64, int64_wrap.
  pose proof (Z.mod_pos_bound (z + 2 ^ 63) (2 ^ 64)). lia.
Qed.

Lemma int64_wrap_congr a b :
  a mod 2 ^ 64 = b mod 2 ^ 64 -> int64_wrap a = int64_wrap b.
Proof.
  unfold int64_wrap. intros H.
  rewrite <- (Z.add_mod_idemp_l a), <- (Z.add_mod_idemp_l b) by lia.
  now rewrite H.
Qed.

Lemma int64_wrap_mod z : int64_wrap z mod 2 ^ 64 = z mod 2 ^ 64.
Proof.
  unfold int64_wrap.
  rewrite <- Zminus_mod_idemp_l.
  rewrite Z.mod_mod by lia.
  rewrite Zminus_mod_idemp_l. f_equal. lia.
Qed.

(** ** The decode table *)

(** A property checked on the 256 bytes holds of every byte. *)
Lemma all_bytes (P : byte -> Prop) :
  Forall P (map ascii_of_nat (seq 0 256)) -> forall c, P c.
Proof.
  intros H c. rewrite Forall_forall in H. apply H.
  apply list_elem_of_In. apply in_map_iff. exists (nat_of_ascii c). split.
  - apply ascii_nat_embedding.
  - apply in_seq. pose proof (nat_ascii_bounded c). lia.
Qed.

Lemma decodeMap_length : length decodeMap = 256%nat.
Proof. reflexivity. Qed.

Lemma decodeMap_ok_all c : decodeMap_ok c = true.
Proof.
  revert c. apply all_bytes.
  apply (bool_decide_unpack _). vm_compute. exact I.
Qed.

Lemma decodeMap_alphabet c :
  c ∈ alphabet ->
  byte_to_Z (decodeMap_at c) = position alphabet c
  /\ 0 <= position alphabet c < 54
  /\ alphabet !! Z.to_nat (position alphabet c) = Some c
  /\ decodeMap_at c <> xFF.
Proof.
  intros Hc. pose proof (decodeMap_ok_all c) as H. unfold decodeMap_ok in H.
  destruct (decide (c ∈ alphabet)); [|done].
  by apply bool_decide_eq_true in H.
Qed.

Lemma decodeMap_invalid c : c ∉ alphabet -> decodeMap_at c = xFF.
Proof.
  intros Hc. pose proof (decodeMap_ok_all c) as H. unfold decodeMap_ok in H.
  destruct (decide (c ∈ alphabet)); [done|].
  by apply bool_decide_eq_true in H.
Qed.

Lemma alphabet_position (d : Z) :
  0 <= d < 54 ->
  exists c, alphabet !! Z.to_nat d = Some c /\ position alphabet c = d.
Proof.
  intros Hd.
  assert (Hall : Forall (fun n => exists c, alphabet !! n = Some c
                                 /\ position alphabet c = Z.of_nat n) (seq 0 54)).
  { repeat (constructor; [eexists; split; reflexivity|]). constructor. }
  rewrite Forall_forall in Hall.
  destruct (Hall (Z.to_nat d)) as (c & H1 & H2).
  - apply list_elem_of_In, in_seq. lia.
  - exists c. split; [done|]. lia.
Qed.

(** ** Decoding follows Horner's rule modulo 2^64 *)

Lemma numeric_value_snoc s c :
  numeric_value (s ++ [c]) = numeric_value s * 54 + position alphabet c.
Proof. unfold numeric_value. by rewrite foldl_app. Qed.

Lemma int64_wrap_horner a d :
  int64_wrap (int64_wrap (int64_wrap a * 54) + d) = int64_wrap (a * 54 + d).
Proof.
  apply int64_wrap_congr.
  rewrite Z.add_mod, int64_wrap_mod by lia.
  rewrite Z.mul_mod, int64_wrap_mod by lia.
  rewrite <- Z.mul_mod, <- Z.add_mod by lia. done.
Qed.

Lemma decode54_loop_valid s :
  Forall (fun c => c ∈ alphabet) s ->
  forall acc, decode54_loop s (int64_wrap acc) = Some (int64_wrap (foldl horner acc s)).
Proof.
  induction 1 as [|c s Hc _ IH]; intros acc; simpl; [done|].
  destruct (decodeMap_alphabet c Hc) as (Hd & _ & _ & Hne).
  destruct (decide (decodeMap_at c = xFF)); [done|].
  rewrite Hd, int64_wrap_horner. apply IH.
Qed.

Lemma decode54_loop_invalid s :
  Exists (fun c => c ∉ alphabet) s -> forall acc, decode54_loop s acc = None.
Proof.
  induction s as [|c s IH]; intros HE acc; [by apply Exists_nil in HE|].
  simpl. destruct (decide (decodeMap_at c = xFF)); [done|].
  apply IH. apply Exists_cons in HE as [Hc|]; [|done].
  by apply decodeMap_invalid in Hc.
Qed.

(** What [decode54] returns on a string over the alphabet, of any length. *)
Lemma decode54_valid s :
  Forall (fun c => c ∈ alphabet) s ->
  decode54 s =
    if decide (int64_wrap (numeric_value s) < 0)
    then (Invalid, Some ErrorInvalid)
    else (int64_wrap (numeric_value s), None).
Proof.
  intros Hs. unfold decode54.
  change 0 with (int64_wrap 0) at 1.
  by rewrite (decode54_loop_valid s Hs 0).
Qed.

Lemma position_nonneg l c : 0 <= position l c.
Proof. induction l; simpl; [lia|]. destruct (decide _); lia. Qed.

Lemma position_alphabet c : c ∈ alphabet -> 0 <= position alphabet c < 54.
Proof. intros Hc. by destruct (decodeMap_alphabet c Hc) as (_ & ? & _). Qed.

Lemma foldl_horner_bounds s :
  Forall (fun c => c ∈ alphabet) s ->
  forall acc, 0 <= acc ->
  acc * 54 ^ Z.of_nat (length s) <= foldl horner acc s
  < (acc + 1) * 54 ^ Z.of_nat (length s).
Proof.
  induction 1 as [|c s Hc _ IH]; intros acc Hacc.
  - simpl. lia.
  - pose proof (position_alphabet c Hc).
    cbn [foldl length]. rewrite Nat2Z.inj_succ, Z.pow_succ_r by lia.
    specialize (IH (horner acc c)). unfold horner in *.
    assert (0 < 54 ^ Z.of_nat (length s)) by (apply Z.pow_pos_nonneg; lia).
    nia.
Qed.

Lemma numeric_value_bounds s :
  Forall (fun c => c ∈ alphabet) s ->
  0 <= numeric_value s < 54 ^ Z.of_nat (length s).
Proof.
  intros Hs. pose proof (foldl_horner_bounds s Hs 0 ltac:(lia)) as H.
  unfold numeric_value. lia.
Qed.

(** ** Encoding prints canonical strings *)

Lemma position_nonzero c : c <> zero_symbol -> 1 <= position alphabet c.
Proof.
  intros Hc. change alphabet with (zero_symbol :: tail alphabet).
  cbn [position]. destruct (decide (zero_symbol = c)); [congruence|].
  pose proof (position_nonneg (tail alphabet) c). lia.
Qed.

Lemma index_alphabet_position c :
  c ∈ alphabet -> index alphabet (position alphabet c) = Ret c.
Proof.
  intros Hc. destruct (decodeMap_alphabet c Hc) as (_ & Hp & Hl & _).
  unfold index. destruct (decide (0 <= position alphabet c)); [|lia].
  by rewrite Hl.
Qed.

Lemma store_last {A} (r l : list A) (x c : A) :
  store (rev (x :: r) ++ l) (Z.of_nat (length (x :: r)) - 1) c
  = Ret (rev r ++ c :: l).
Proof.
  unfold store. cbn [rev length].
  rewrite !length_app, !length_rev. cbn [length].
  destruct (decide _) as [_|Hn]; [|lia].
  f_equal. rewrite <- app_assoc. cbn [app].
  replace (Z.to_nat (Z.of_nat (S (length r)) - 1)) with (length (rev r) + 0)%nat
    by (rewrite length_rev; lia).
  by rewrite insert_app_r.
Qed.

Lemma slice_from_app {A} (r l : list A) :
  slice_from (r ++ l) (Z.of_nat (length r)) = Ret l.
Proof.
  unfold slice_from. rewrite length_app.
  destruct (decide _); [|lia].
  by rewrite Nat2Z.id, drop_app_length.
Qed.

Lemma base54_loop_small fuel b i id :
  id < 54 -> base54_loop fuel b i id = Ret (b, i, id).
Proof.
  intros H. destruct fuel; simpl; destruct (decide (id >= 54)); done || lia.
Qed.

Lemma base54_loop_step fuel b i id :
  54 <= id ->
  base54_loop (S fuel) b i id =
    (do c <- index alphabet (Z.rem id 54) ;;
     do b' <- store b i c ;;
     base54_loop fuel b' (i - 1) (Z.quot id 54)).
Proof. intros H. simpl. destruct (decide (id >= 54)); done || lia. Qed.

(** More fuel than the buffer has room never changes the result of the
    loop, and the loop never runs out of it. *)
Lemma base54_loop_fuel fuel :
  forall fuel' b i id,
    -1 <= i -> i + 1 < Z.of_nat fuel -> (fuel <= fuel')%nat ->
    base54_loop fuel' b i id = base54_loop fuel b i id
    /\ base54_loop fuel b i id <> OutOfFuel.
Proof.
  induction fuel as [|fuel IH]; intros fuel' b i id Hi Hfuel Hle; [lia|].
  destruct fuel' as [|fuel']; [lia|].
  destruct (decide (id < 54)) as [Hlt|Hge].
  { by rewrite !base54_loop_small. }
  rewrite !base54_loop_step by lia.
  destruct (index alphabet (Z.rem id 54)) as [c| |] eqn:Hidx; cbn [obind].
  - unfold store. destruct (decide (0 <= i < Z.of_nat (length b))); cbn [obind]; [|done].
    apply IH; lia.
  - done.
  - exfalso. unfold index in Hidx.
    destruct (decide _); [destruct (_ !! _)|]; done.
Qed.

Lemma base54_fuel_enough fuel id :
  (12 <= fuel)%nat ->
  base54_fuel fuel id = base54 id /\ base54 id <> OutOfFuel.
Proof.
  intros Hfuel. unfold base54, base54_fuel.
  destruct (decide (id < 0)); [done|].
  destruct (decide (id < 54)).
  { split; [done|]. unfold index. destruct (decide _); [destruct (_ !! _)|]; done. }
  destruct (base54_loop_fuel 12 fuel (replicate 11 zero) 10 id) as [-> Hne];
    [lia..|].
  split; [done|].
  destruct (base54_loop 12 (replicate 11 zero) 10 id) as [[[b i] id']| |];
    cbn [obind]; [|done..].
  unfold index, store, slice_from.
  destruct (decide (0 <= id')); [destruct (_ !! _)|]; cbn [obind]; try done.
  destruct (decide (0 <= i < _)); cbn [obind]; [|done].
  destruct (decide (0 <= i <= _)); done.
Qed.

Lemma foldl_horner_pos s c0 :
  Forall (fun c => c ∈ alphabet) s -> 1 <= position alphabet c0 ->
  1 <= foldl horner (position alphabet c0) s.
Proof.
  intros Hs Hc.
  pose proof (foldl_horner_bounds s Hs (position alphabet c0) ltac:(lia)).
  assert (0 < 54 ^ Z.of_nat (length s)) by (apply Z.pow_pos_nonneg; lia).
  nia.
Qed.

(** The loop of [base54] on the value of [c0 :: cs] writes [cs] in front of
    what the buffer already holds to the right of [i], and stops at [c0]. *)
Lemma base54_loop_string cs :
  forall c0 fuel rpre suf,
    Forall (fun c => c ∈ alphabet) cs ->
    c0 ∈ alphabet -> 1 <= position alphabet c0 ->
    (length cs <= length rpre)%nat -> (length cs <= fuel)%nat ->
    base54_loop fuel (rev rpre ++ suf) (Z.of_nat (length rpre) - 1)
                (foldl horner (position alphabet c0) cs)
    = Ret (rev (drop (length cs) rpre) ++ cs ++ suf,
           Z.of_nat (length rpre) - 1 - Z.of_nat (length cs),
           position alphabet c0).
Proof.
  induction cs as [|c cs IH] using rev_ind;
    intros c0 fuel rpre suf Hcs Hin Hc0 Hlen Hfuel.
  - cbn [foldl length]. rewrite drop_0.
    rewrite base54_loop_small by (pose proof (position_alphabet c0 Hin); lia).
    change (Z.of_nat 0) with 0. by rewrite Z.sub_0_r.
  - apply Forall_app in Hcs as [Hcs Hc]. rewrite Forall_singleton in Hc.
    rewrite length_app in Hlen, Hfuel. cbn [length] in Hlen, Hfuel.
    destruct fuel as [|fuel]; [lia|].
    destruct rpre as [|x rpre]; [cbn [length] in Hlen; lia|].
    rewrite foldl_app. cbn [foldl]. unfold horner at 1.
    pose proof (foldl_horner_pos cs c0 Hcs Hc0) as Hpos.
    pose proof (position_alphabet c Hc) as Hpc.
    set (q := foldl horner (position alphabet c0) cs) in *.
    rewrite base54_loop_step by lia.
    rewrite Z.rem_mod_nonneg, Z.quot_div_nonneg by lia.
    replace ((q * 54 + position alphabet c) mod 54) with (position alphabet c)
      by (rewrite Z.add_comm, Z.mod_add by lia; rewrite Z.mod_small; lia).
    replace ((q * 54 + position alphabet c) `div` 54) with q
      by (rewrite Z.add_comm, Z.div_add by lia; rewrite Z.div_small; lia).
    rewrite index_alphabet_position by done. cbn [obind].
    rewrite store_last. cbn [obind].
    replace (Z.of_nat (length (x :: rpre)) - 1 - 1) with (Z.of_nat (length rpre) - 1)
      by (cbn [length]; lia).
    cbn [length] in Hlen. subst q.
    rewrite (IH c0 fuel rpre (c :: suf)) by (done || lia).
    rewrite length_app. cbn [length].
    replace (length cs + 1)%nat with (S (length cs)) by lia.
    cbn [drop]. rewrite <- app_assoc. cbn [app].
    replace (Z.of_nat (S (length rpre)) - 1 - Z.of_nat (S (length cs)))
      with (Z.of_nat (length rpre) - 1 - Z.of_nat (length cs)) by lia.
    done.
Qed.

Lemma numeric_value_cons c s :
  numeric_value (c :: s) = foldl horner (position alphabet c) s.
Proof. reflexivity. Qed.

(** [base54] prints a canonical string of at most eleven symbols back from
    its value. *)
Lemma base54_canonical (s : list byte) :
  canonical s -> Forall (fun c => c ∈ alphabet) s -> (length s <= 11)%nat ->
  base54 (numeric_value s) = Ret (string_of_list_ascii s, None).
Proof.
  intros Hcan Hs Hlen.
  destruct s as [|c0 cs]; [done|].
  apply Forall_cons in Hs as [Hc0 Hcs].
  pose proof (position_alphabet c0 Hc0) as Hp0.
  unfold base54, base54_fuel. rewrite numeric_value_cons.
  destruct cs as [|c1 cs].
  - cbn [foldl]. destruct (decide (position alphabet c0 < 0)); [lia|].
    destruct (decide (position alphabet c0 < 54)); [|lia].
    by rewrite index_alphabet_position.
  - cbn [canonical] in Hcan. apply position_nonzero in Hcan.
    set (cs' := c1 :: cs) in *.
    pose proof (foldl_horner_bounds cs' Hcs (position alphabet c0) ltac:(lia)) as Hb.
    assert (54 <= 54 ^ Z.of_nat (length cs')).
    { subst cs'. cbn [length]. rewrite Nat2Z.inj_succ, Z.pow_succ_r by lia.
      assert (0 < 54 ^ Z.of_nat (length cs)) by (apply Z.pow_pos_nonneg; lia). lia. }
    destruct (decide (_ < 0)); [nia|].
    destruct (decide (_ < 54)); [nia|].
    cbn [length] in Hlen.
    pose proof (base54_loop_string cs' c0 12 (replicate 11 zero) [] Hcs Hc0 Hcan) as HL.
    change (rev (replicate 11 zero) ++ []) with (replicate 11 zero) in HL.
    change (Z.of_nat (length (replicate 11 zero)) - 1) with 10 in HL.
    rewrite HL by (rewrite ?length_replicate; lia). clear HL.
    cbn [obind]. rewrite index_alphabet_position by done. cbn [obind].
    rewrite app_nil_r. unfold byte in *.
    destruct (drop (length cs') (replicate 11 zero)) as [|x r] eqn:Hd.
    { apply (f_equal length) in Hd. rewrite length_drop, length_replicate in Hd.
      cbn [length] in Hd. lia. }
    apply (f_equal length) in Hd. rewrite length_drop, length_replicate in Hd.
    replace (10 - Z.of_nat (length cs')) with (Z.of_nat (length (x :: r)) - 1) by lia.
    rewrite store_last. cbn [obind].
    replace (Z.of_nat (length (x :: r)) - 1) with (Z.of_nat (length (rev r)))
      by (rewrite length_rev; cbn [length]; lia).
    rewrite slice_from_app. done.
Qed.

(** ** Every number has a canonical string *)

Lemma canonical_snoc s c :
  canonical s -> 1 <= numeric_value s -> canonical (s ++ [c]).
Proof.
  intros Hcan Hv. destruct s as [|c0 [|c1 s]]; [done| |exact Hcan].
  intros ->. by vm_compute in Hv.
Qed.

(** Every non-negative number has a canonical string. *)
Lemma canonical_exists id :
  0 <= id ->
  exists s, canonical s /\ Forall (fun c => c ∈ alphabet) s /\ numeric_value s = id.
Proof.
  induction id as [id IH] using (well_founded_induction (Z.lt_wf 0)).
  intros Hid. destruct (decide (id < 54)) as [Hlt|Hge].
  - destruct (alphabet_position id ltac:(lia)) as (c & Hc & Hp).
    exists [c]. split; [done|]. split.
    + apply Forall_singleton. by eapply list_elem_of_lookup_2.
    + rewrite numeric_value_cons. exact Hp.
  - pose proof (Z.div_mod id 54 ltac:(lia)) as Hdm.
    pose proof (Z.mod_pos_bound id 54 ltac:(lia)) as Hm.
    destruct (IH (id `div` 54) ltac:(lia) ltac:(lia)) as (s & Hcan & Hs & Hv).
    destruct (alphabet_position (id `mod` 54) Hm) as (c & Hc & Hp).
    exists (s ++ [c]). split; [|split].
    + apply canonical_snoc; [done|lia].
    + apply Forall_app. split; [done|].
      apply Forall_singleton. by eapply list_elem_of_lookup_2.
    + rewrite numeric_value_snoc, Hv, Hp. lia.
Qed.

Lemma canonical_lower c0 cs :
  canonical (c0 :: cs) -> Forall (fun c => c ∈ alphabet) (c0 :: cs) -> cs <> [] ->
  54 ^ Z.of_nat (length cs) <= numeric_value (c0 :: cs).
Proof.
  intros Hcan Hs Hne. apply Forall_cons in Hs as [Hc0 Hcs].
  destruct cs as [|c1 cs]; [done|]. cbn [canonical] in Hcan.
  apply position_nonzero in Hcan. rewrite numeric_value_cons.
  pose proof (foldl_horner_bounds (c1 :: cs) Hcs (position alphabet c0) ltac:(lia)).
  assert (0 < 54 ^ Z.of_nat (length (c1 :: cs))) by (apply Z.pow_pos_nonneg; lia).
  nia.
Qed.

Lemma canonical_length s :
  canonical s -> Forall (fun c => c ∈ alphabet) s ->
  numeric_value s < 54 ^ 11 -> (1 <= length s <= 11)%nat.
Proof.
  intros Hcan Hs Hv. destruct s as [|c0 cs]; [done|].
  destruct (decide (cs = [])) as [->|Hne]; [cbn; lia|].
  pose proof (canonical_lower c0 cs Hcan Hs Hne) as Hl.
  assert (Z.of_nat (length cs) < 11).
  { apply (Z.pow_lt_mono_r_iff 54); lia. }
  cbn [length]. lia.
Qed.

(** [base54] is total on the non-negative [int64] values, and prints the
    canonical string of its argument. *)
Lemma base54_nonneg id :
  0 <= id < 2 ^ 63 ->
  exists s : list byte,
    canonical s /\ Forall (fun c => c ∈ alphabet) s /\ numeric_value s = id
    /\ (1 <= length s <= 11)%nat
    /\ base54 id = Ret (string_of_list_ascii s, None).
Proof.
  intros Hid. destruct (canonical_exists id ltac:(lia)) as (s & Hcan & Hs & Hval).
  pose proof (canonical_length s Hcan Hs ltac:(lia)) as Hlen.
  exists s. repeat (split; [done|]).
  rewrite <- Hval. apply base54_canonical; [done..|lia].
Qed.

Lemma base54_negative id :
  id < 0 -> base54 id = Ret (EmptyString, Some ErrorInvalid).
Proof. intros Hneg. unfold base54, base54_fuel. by destruct (decide (id < 0)). Qed.

Lemma canonical_shortest s s' :
  canonical s -> Forall (fun c => c ∈ alphabet) s ->
  s' <> [] -> Forall (fun c => c ∈ alphabet) s' ->
  numeric_value s' = numeric_value s -> (length s <= length s')%nat.
Proof.
  intros Hcan Hs Hne Hs' Hv. destruct s as [|c0 cs]; [done|].
  destruct (decide (cs = [])) as [->|Hcs].
  { destruct s'; [done|]. cbn [length]. lia. }
  pose proof (canonical_lower c0 cs Hcan Hs Hcs) as Hl.
  pose proof (numeric_value_bounds s' Hs') as Hu.
  assert (Z.of_nat (length cs) < Z.of_nat (length s')).
  { apply (Z.pow_lt_mono_r_iff 54); lia. }
  cbn [length]. lia.
Qed.

Lemma bytes_length s : length (bytes s) = String.length s.
Proof. induction s; cbn; [done|]. by f_equal. Qed.

Lemma int64_wrap_negative z : 2 ^ 63 <= z mod 2 ^ 64 -> int64_wrap z < 0.
Proof.
  intros H. unfold int64_wrap.
  pose proof (Z.mod_pos_bound z (2 ^ 64) ltac:(lia)) as Hb.
  rewrite (Z.div_mod z (2 ^ 64)) at 1 by lia.
  replace (2 ^ 64 * (z `div` 2 ^ 64) + z mod 2 ^ 64 + 2 ^ 63)
    with (z mod 2 ^ 64 - 2 ^ 63 + (z `div` 2 ^ 64 + 1) * 2 ^ 64) by ring.
  rewrite Z.mod_add by lia. rewrite Z.mod_small by lia. lia.
Qed.

Lemma alphabet_lookup_position i c :
  alphabet !! i = Some c -> position alphabet c = Z.of_nat i.
Proof.
  intros Hi. pose proof (lookup_lt_Some _ _ _ Hi) as Hlt.
  change (length alphabet) with 54%nat in Hlt.
  destruct (alphabet_position (Z.of_nat i) ltac:(lia)) as (c' & Hc' & Hp).
  rewrite Nat2Z.id in Hc'. congruence.
Qed.

(** ** Packing the three fields *)

Lemma lor_shiftl_low x k b :
  0 <= k -> 0 <= b < 2 ^ k -> Z.lor (Z.shiftl x k) b = x * 2 ^ k + b.
Proof.
  intros Hk Hb. rewrite <- Z.shiftl_mul_pow2 by done.
  symmetry. apply Z.add_nocarry_lor.
  apply Z.bits_inj'. intros n Hn.
  rewrite Z.land_spec, Z.bits_0.
  destruct (decide (n < k)) as [Hlt|Hge].
  - by rewrite Z.shiftl_spec_low.
  - destruct (decide (b = 0)) as [->|Hb0]; [by rewrite Z.bits_0, andb_false_r|].
    rewrite (Z.bits_above_log2 b n), andb_false_r; [done|lia|].
    assert (Z.log2 b < k) by (apply Z.log2_lt_pow2; lia). lia.
Qed.

Lemma pack_sum t m s :
  0 <= t < 2 ^ 42 -> 0 <= m < 512 -> 0 <= s < 4096 ->
  pack t m s = t * 2 ^ 21 + m * 2 ^ 12 + s.
Proof.
  intros Ht Hm Hs. unfold pack, bitsMachineID, bitsMachineSequence.
  change (9 + 12) with 21.
  rewrite (int64_wrap_id (Z.shiftl t 21)), (int64_wrap_id (Z.shiftl m 12))
    by (rewrite Z.shiftl_mul_pow2 by lia; unfold is_int64; lia).
  rewrite (Z.shiftl_mul_pow2 m) by lia.
  rewrite lor_shiftl_low by lia.
  replace (t * 2 ^ 21 + m * 2 ^ 12) with ((t * 2 ^ 9 + m) * 2 ^ 12) by lia.
  rewrite <- (Z.shiftl_mul_pow2 (t * 2 ^ 9 + m)) by lia.
  rewrite lor_shiftl_low by lia. by rewrite Z.shiftl_mul_pow2 by lia.
Qed.

Lemma pack_fields t m s :
  0 <= t < 2 ^ 42 -> 0 <= m < 512 -> 0 <= s < 4096 ->
  MachineId (pack t m s) = m
  /\ MachineSequence (pack t m s) = s
  /\ Time (pack t m s) = t + Epoch.
Proof.
  intros Ht Hm Hs. rewrite pack_sum by done.
  unfold MachineId, MachineSequence, Time, bitMapMachineId, bitMapMachineSequence,
    bitsMachineID, bitsMachineSequence, Epoch.
  change (9 + 12) with 21.
  change (2 ^ 9 - 1) with (Z.ones 9). change (2 ^ 12 - 1) with (Z.ones 12).
  rewrite !Z.land_ones, !Z.shiftr_div_pow2 by lia.
  assert (H12 : (t * 2 ^ 21 + m * 2 ^ 12 + s) `div` 2 ^ 12 = t * 2 ^ 9 + m).
  { replace (t * 2 ^ 21 + m * 2 ^ 12 + s) with (s + (t * 2 ^ 9 + m) * 2 ^ 12) by lia.
    rewrite Z.div_add by lia. rewrite Z.div_small by lia. lia. }
  assert (H21 : (t * 2 ^ 21 + m * 2 ^ 12 + s) `div` 2 ^ 21 = t).
  { replace (t * 2 ^ 21 + m * 2 ^ 12 + s) with ((m * 2 ^ 12 + s) + t * 2 ^ 21) by lia.
    rewrite Z.div_add by lia. rewrite Z.div_small by lia. lia. }
  rewrite H12, H21. split; [|split].
  - rewrite Z.add_comm, Z.mod_add by lia. apply Z.mod_small. lia.
  - replace (t * 2 ^ 21 + m * 2 ^ 12 + s) with (s + (t * 2 ^ 9 + m) * 2 ^ 12) by lia.
    rewrite Z.mod_add by lia. apply Z.mod_small. lia.
  - apply int64_wrap_id. unfold is_int64. lia.
Qed.

(** ** One call and a run of calls *)

Lemma seq_next_range seq0 :
  0 <= Z.land (int64_wrap (seq0 + 1)) bitMapMachineSequence < 4096.
Proof.
  change bitMapMachineSequence with (Z.ones 12).
  rewrite Z.land_ones by lia. apply Z.mod_pos_bound. lia.
Qed.

Lemma seq_next_succ seq0 :
  0 <= seq0 < 4095 ->
  Z.land (int64_wrap (seq0 + 1)) bitMapMachineSequence = seq0 + 1.
Proof.
  intros H. change bitMapMachineSequence with (Z.ones 12).
  rewrite Z.land_ones by lia.
  rewrite int64_wrap_id by (unfold is_int64; lia).
  apply Z.mod_small. lia.
Qed.

Lemma spin_cases prev rs :
  forall now, now <= prev ->
  (spin prev now rs = OutOfFuel /\ advances prev rs = 0%nat)
  \/ (exists skipped now' rest,
        spin prev now rs = Ret (now', rest)
        /\ rs = skipped ++ now' :: rest
        /\ prev < now'
        /\ advances prev rs = S (advances now' rest)).
Proof.
  induction rs as [|t rs IH]; intros now Hnow.
  - left. cbn. by destruct (decide (now <= prev)).
  - cbn [spin advances]. destruct (decide (now <= prev)); [|lia].
    destruct (decide (prev < t)) as [Hlt|Hge].
    + right. exists [], t, rs. split; [|done].
      destruct rs; cbn; (destruct (decide (t <= prev)); [exfalso; lia|done]).
    + destruct (IH t ltac:(lia)) as [[H1 H2]|(sk & now' & rest & H1 & H2 & H3 & H4)].
      * by left.
      * right. exists (t :: sk), now', rest.
        split; [done|]. split; [by rewrite H2|done].
Qed.

(** The possible results of one call, with no assumption on the state or
    on the clock. *)
Lemma Generate_cases g readings :
  match Generate g readings with
  | OutOfFuel => advances (previous g) readings = 0%nat
  | Panic => exists now rs, readings = now :: rs /\ now < previous g
  | Ret (id, g', rest) =>
      exists skipped now seq0,
        readings = skipped ++ now :: rest
        /\ (id, g') = assemble g now seq0
        /\ ((previous g < now
             /\ machineSequence g' = 0
             /\ advances (previous g) readings = S (advances now rest))
            \/ (now = previous g
                /\ machineSequence g <> bitMapMachineSequence
                /\ seq0 = machineSequence g
                /\ advances (previous g) readings = advances now rest))
  end.
Proof.
  destruct readings as [|now rs]; [done|]. cbn [Generate advances].
  destruct (decide (now = previous g /\ machineSequence g = bitMapMachineSequence))
    as [[Hnow Hseq]|Hn].
  - destruct (decide (previous g < now)); [lia|].
    destruct (spin_cases (previous g) rs now ltac:(lia))
      as [[H1 H2]|(sk & now' & rest & H1 & H2 & H3 & H4)]; rewrite H1; cbn [obind].
    + done.
    + exists (now :: sk), now', (machineSequence g).
      split; [by rewrite H2|]. split; [done|]. left.
      split; [done|]. split; [|done]. cbn. by rewrite Hseq.
  - destruct (decide (now > previous g)) as [Hgt|Hle].
    + exists [], now, (-1). split; [done|]. split; [done|]. left.
      split; [lia|]. split; [done|]. by destruct (decide (previous g < now)); [|lia].
    + destruct (decide (now < previous g)) as [Hlt|Hge]; [by exists now, rs|].
      exists [], now, (machineSequence g). split; [done|]. split; [done|]. right.
      assert (now = previous g) by lia.
      split; [done|]. split; [intros ?; by apply Hn|]. split; [done|].
      destruct (decide (previous g < now)); [lia|]. by subst.
Qed.

Lemma pack_lt t m s t' s' :
  timestamp_ok t -> timestamp_ok t' -> 0 <= m < 512 ->
  0 <= s < 4096 -> 0 <= s' < 4096 ->
  t < t' \/ (t = t' /\ s < s') ->
  pack t m s < pack t' m s'.
Proof.
  unfold timestamp_ok, bitsTimestamp. intros Ht Ht' Hm Hs Hs' Hlt.
  rewrite !pack_sum by done. lia.
Qed.

Lemma pack_nonneg t m s :
  timestamp_ok t -> 0 <= m < 512 -> 0 <= s < 4096 -> 0 <= pack t m s < 2 ^ 63.
Proof.
  unfold timestamp_ok, bitsTimestamp. intros Ht Hm Hs.
  rewrite pack_sum by done. lia.
Qed.

(** One call under the invariant: it cannot panic, and when it returns,
    the new ID is above the last one and the invariant holds again. *)
Lemma Generate_step g readings :
  gen_inv g readings ->
  match Generate g readings with
  | OutOfFuel => advances (previous g) readings = 0%nat
  | Panic => False
  | Ret (id, g', rest) =>
      id = last_id g' /\ last_id g < id /\ gen_inv g' rest
      /\ (advances (previous g) readings <= S (advances (previous g') rest))%nat
  end.
Proof.
  intros (Hm & Hseq & Hprev & Hsorted & Hall).
  pose proof (Generate_cases g readings) as HG.
  destruct (Generate g readings) as [[[id g'] rest]| |]; [| |done].
  - destruct HG as (sk & now & seq0 & Hrs & Hasm & Hcase).
    injection Hasm as Hid Hg'. subst readings.
    apply StronglySorted_app_1_r in Hsorted as Hs2.
    apply StronglySorted_cons in Hs2 as [Hnow_le Hs2].
    apply Forall_app in Hall as [_ Hall]. apply Forall_cons in Hall as [[Hp Hnow] Hall].
    pose proof (seq_next_range seq0) as Hs1.
    assert (Hg'id : machineId g' = machineId g) by (by subst g').
    assert (Hg'prev : previous g' = now) by (by subst g').
    assert (Hg'seq : machineSequence g'
                     = Z.land (int64_wrap (seq0 + 1)) bitMapMachineSequence)
      by (by subst g').
    assert (Hinv : gen_inv g' rest).
    { unfold gen_inv. rewrite Hg'id, Hg'prev, Hg'seq.
      split; [done|]. split; [done|]. split; [done|]. split; [done|].
      rewrite Forall_forall in Hall, Hnow_le. apply Forall_forall.
      intros t Ht. split; [by apply Hnow_le|by apply Hall]. }
    split; [by subst id g'|]. split; [|split; [done|]].
    + replace id with (last_id g') by (by subst id g').
      unfold last_id. rewrite Hg'id, Hg'prev.
      apply pack_lt; try done; [by rewrite Hg'seq|].
      destruct Hcase as [(Hlt & _)|(Heq & Hne & Hs0 & _)]; [by left|right].
      split; [done|]. subst seq0. rewrite Hg'seq, seq_next_succ; [lia|].
      unfold bitMapMachineSequence, bitsMachineSequence in Hne. lia.
    + rewrite Hg'prev.
      destruct Hcase as [(_ & _ & ->)|(_ & _ & _ & ->)]; lia.
  - destruct HG as (now & rs & -> & Hlt).
    apply Forall_cons in Hall as [[Hp _] _]. lia.
Qed.

Lemma Generate_n_cases n :
  forall g readings,
  gen_inv g readings ->
  match Generate_n n g readings with
  | OutOfFuel => (advances (previous g) readings < n)%nat
  | Panic => False
  | Ret (ids, g', rest) =>
      length ids = n /\ Forall (fun id => last_id g < id) ids
      /\ StronglySorted Z.lt ids /\ gen_inv g' rest
  end.
Proof.
  induction n as [|n IH]; intros g readings Hinv.
  - cbn [Generate_n]. split; [done|]. split; [by apply Forall_nil|].
    split; [apply SSorted_nil|done].
  - cbn [Generate_n]. pose proof (Generate_step g readings Hinv) as HS.
    destruct (Generate g readings) as [[[id g1] rest1]| |]; cbn [obind]; [| done | lia].
    destruct HS as (Hid & Hlt & Hinv1 & Hadv).
    specialize (IH g1 rest1 Hinv1).
    destruct (Generate_n n g1 rest1) as [[[ids g2] rest2]| |]; cbn [obind]; [| done | lia].
    destruct IH as (Hlen & Hall & Hsorted & Hinv2).
    rewrite <- Hid in Hall.
    split; [cbn; lia|]. split; [|split; [|done]].
    + constructor; [done|]. eapply Forall_impl; [exact Hall|]. intros x Hx. cbn in Hx. lia.
    + by constructor.
Qed.

Lemma StronglySorted_lt_NoDup (l : list Z) : StronglySorted Z.lt l -> NoDup l.
Proof.
  induction 1 as [|x l _ IH Hall]; constructor; [|done].
  intros Hin. rewrite Forall_forall in Hall. specialize (Hall x Hin). lia.
Qed.

(** ** Configured machine identifiers *)

Lemma getContinentCode_from_range rows region :
  forall i,
  getContinentCode_from rows i region = -1
  \/ i <= getContinentCode_from rows i region < i + Z.of_nat (length rows).
Proof.
  induction rows as [|row rows IH]; intros i; cbn [getContinentCode_from length].
  - by left.
  - destruct (region_in row region); [right; lia|].
    destruct (IH (i + 1)) as [->|H]; [by left|right; lia].
Qed.

Lemma SetMachineId_range region index g g' :
  SetMachineId region index g = Ret g' ->
  0 <= machineId g' < 512
  /\ machineSequence g' = machineSequence g /\ previous g' = previous g.
Proof.
  unfold SetMachineId, getContinentCode, bitsMachineID.
  change (2 ^ (9 - 3)) with 64. change (9 - 3) with 6.
  pose proof (getContinentCode_from_range continents region 0) as Hc.
  change (Z.of_nat (length continents)) with 7 in Hc.
  set (continent := getContinentCode_from continents 0 region) in *.
  destruct (decide _) as [|Hn]; [done|]. intros [= <-]. cbn.
  split; [|done].
  change 7 with (Z.ones 3). change (int64_wrap (64 - 1)) with (Z.ones 6).
  rewrite !Z.land_ones by lia.
  rewrite (Z.mod_small continent), (Z.mod_small index) by lia.
  rewrite int64_wrap_id by (rewrite Z.shiftl_mul_pow2 by lia; unfold is_int64; lia).
  rewrite lor_shiftl_low by lia. lia.
Qed.

Lemma reachable_machineId g : reachable g -> 0 <= machineId g < 512.
Proof.
  induction 1 as [|region index g g' _ IH Hset|g readings id g' rest _ IH Hgen].
  - cbn. lia.
  - by apply SetMachineId_range in Hset as [? _].
  - pose proof (Generate_cases g readings) as HG. rewrite Hgen in HG.
    destruct HG as (sk & now & seq0 & _ & Hasm & _).
    injection Hasm as _ ->. done.
Qed.

(** * Properties of the specification *)

(** ** Fixtures of the test suite *)

Example encode_fixtures :
  base54 123 = Ret ("21"%string, None)
  /\ base54 123123 = Ret ("6vF"%string, None)
  /\ base54 123123123 = Ret ("nHW1a"%string, None)
  /\ base54 1820096636282474496 = Ret ("efUzLtM5yvu"%string, None)
  /\ base54 9223372036854775807 = Ret ("EZNmktHEz5H"%string, None).
Proof. repeat split; by vm_compute. Qed.

Example decode_fixtures :
  Parse "21" = (123, None)
  /\ Parse "6vF" = (123123, None)
  /\ Parse "nHW1a" = (123123123, None)
  /\ Parse "efUzLtM5yvu" = (1820096636282474496, None)
  /\ Parse "EZNmktHEz5H" = (9223372036854775807, None)
  /\ Parse "xZNmktHEz5H" = (Invalid, Some ErrorInvalid).
Proof. repeat split; by vm_compute. Qed.

Example SetMachineId_fixture :
  SetMachineId "arn" 35 generator_init
  = Ret {| machineId := 355; machineSequence := 0; previous := 0 |}.
Proof. by vm_compute. Qed.

(** ** The codec *)

(** C1. For every [v] with [0 <= v < 2^63], [base54 v] returns a string
    with no error, and parsing that string returns [v] with no error:
    decoding inverts encoding. *)
Theorem decode_encode_roundtrip (v : ID) :
  0 <= v < 2 ^ 63 ->
  exists s : string, base54 v = Ret (s, None) /\ Parse s = (v, None).
Proof.
  intros Hv. destruct (base54_nonneg v Hv) as (s & Hcan & Hs & Hval & Hlen & Hb).
  exists (string_of_list_ascii s). split; [done|].
  unfold Parse, bytes. rewrite list_ascii_of_string_of_list_ascii.
  rewrite decode54_valid, Hval by done.
  rewrite int64_wrap_id by (unfold is_int64; lia).
  destruct (decide (v < 0)); [lia|done].
Qed.

Lemma decode_encode_roundtrip_witness :
  0 <= 123123123 < 2 ^ 63 /\
  exists s : string, base54 123123123 = Ret (s, None) /\ Parse s = (123123123, None).
Proof. split; [lia|]. apply (decode_encode_roundtrip 123123123). lia. Defined.

(** C3, as stated, fails: ["g8"] has two symbols of the alphabet and decodes
    to 1, which is in range, but 1 encodes to ["8"]; a leading zero symbol
    is not printed back. *)
Lemma reencode_leading_zero_counterexample :
  (String.length "g8" <= 11)%nat
  /\ Forall (fun c => c ∈ alphabet) (bytes "g8")
  /\ Parse "g8" = (1, None) /\ 0 <= 1 < 2 ^ 63
  /\ base54 1 = Ret ("8"%string, None)
  /\ base54 1 <> Ret ("g8"%string, None).
Proof.
  split; [cbn; lia|]. split; [by apply (bool_decide_unpack _)|].
  split; [by vm_compute|]. split; [lia|]. split; by vm_compute.
Qed.

(** C3, amended. For every string of at most eleven symbols of the alphabet
    that is canonical (one symbol, or not starting with the zero symbol
    ["g"]) and whose numeric value is below [2^63], parsing succeeds with a
    value in range and encoding that value gives the string back. *)
Theorem encode_decode_canonical (s : string) :
  (String.length s <= 11)%nat ->
  Forall (fun c => c ∈ alphabet) (bytes s) ->
  canonical (bytes s) ->
  numeric_value (bytes s) < 2 ^ 63 ->
  exists id : ID, Parse s = (id, None) /\ 0 <= id < 2 ^ 63
                  /\ base54 id = Ret (s, None).
Proof.
  intros Hlen Hs Hcan Hv. exists (numeric_value (bytes s)).
  pose proof (numeric_value_bounds _ Hs) as Hb.
  split; [|split; [lia|]].
  - unfold Parse. fold (bytes s). rewrite decode54_valid by done.
    rewrite int64_wrap_id by (unfold is_int64; lia).
    destruct (decide (_ < 0)); [lia|done].
  - rewrite base54_canonical; [|done..|by rewrite bytes_length].
    unfold bytes. by rewrite string_of_list_ascii_of_string.
Qed.

Lemma encode_decode_canonical_witness :
  exists id : ID, Parse "EZNmktHEz5H" = (id, None) /\ 0 <= id < 2 ^ 63
                  /\ base54 id = Ret ("EZNmktHEz5H"%string, None).
Proof.
  apply (encode_decode_canonical "EZNmktHEz5H").
  - cbn. lia.
  - by apply (bool_decide_unpack _).
  - by vm_compute.
  - by vm_compute.
Defined.

(** C4, as stated, fails: the twelve symbols ["84GkdPTvYgZE"] denote
    [2^64 + 123123123], above the maximum ID, yet the 64-bit accumulator
    wraps to 123123123 and [Parse] returns it with no error. *)
Lemma decode_overflow_wraps_counterexample :
  Forall (fun c => c ∈ alphabet) (bytes "84GkdPTvYgZE")
  /\ numeric_value (bytes "84GkdPTvYgZE") = 2 ^ 64 + 123123123
  /\ 2 ^ 63 - 1 < numeric_value (bytes "84GkdPTvYgZE")
  /\ Parse "84GkdPTvYgZE" = (123123123, None).
Proof.
  split; [by apply (bool_decide_unpack _)|].
  split; [by vm_compute|]. split; [by vm_compute|by vm_compute].
Qed.

(** C4, amended. For every string over the alphabet whose numeric value
    exceeds [2^63 - 1] and which has at most eleven symbols, or whose value
    modulo [2^64] is at least [2^63], [Parse] fails with [ErrorInvalid] and
    returns the sentinel [Invalid]. *)
Theorem decode_overflow_rejected (s : string) :
  Forall (fun c => c ∈ alphabet) (bytes s) ->
  (String.length s <= 11)%nat \/ 2 ^ 63 <= numeric_value (bytes s) mod 2 ^ 64 ->
  2 ^ 63 - 1 < numeric_value (bytes s) ->
  Parse s = (Invalid, Some ErrorInvalid).
Proof.
  intros Hs Hcase Hv. unfold Parse. fold (bytes s).
  rewrite decode54_valid by done.
  destruct (decide (_ < 0)) as [|Hn]; [done|]. exfalso. apply Hn.
  apply int64_wrap_negative. destruct Hcase as [Hlen|]; [|done].
  pose proof (numeric_value_bounds _ Hs) as Hb. rewrite bytes_length in Hb.
  assert (54 ^ Z.of_nat (String.length s) <= 54 ^ 11)
    by (apply Z.pow_le_mono_r; lia).
  rewrite Z.mod_small; lia.
Qed.

Lemma decode_overflow_rejected_witness :
  Parse "xZNmktHEz5H" = (Invalid, Some ErrorInvalid).
Proof.
  apply (decode_overflow_rejected "xZNmktHEz5H").
  - by apply (bool_decide_unpack _).
  - left. cbn. lia.
  - by vm_compute.
Defined.

(** C5. For every string with at least one byte outside the alphabet,
    [Parse] fails with [ErrorInvalidByte] and returns the sentinel -1. The
    table it reads is the one [initDecodeMap] builds: 256 entries, [0xFF]
    at every byte outside the alphabet, and at every alphabet symbol its
    position, which is never [0xFF]. *)
Theorem decode_invalid_byte (s : string) :
  Exists (fun c => c ∉ alphabet) (bytes s) ->
  Parse s = (Invalid, Some ErrorInvalidByte)
  /\ Invalid = -1
  /\ decodeMap = initDecodeMap (replicate 256 zero)
  /\ length decodeMap = 256%nat
  /\ length alphabet = 54%nat
  /\ byte_to_Z xFF = 255
  /\ (forall c : byte, c ∉ alphabet -> decodeMap_at c = xFF)
  /\ (forall (i : nat) (c : byte),
        alphabet !! i = Some c ->
        decodeMap_at c = byte_of_Z (Z.of_nat i) /\ decodeMap_at c <> xFF).
Proof.
  intros Hs. split.
  { unfold Parse, decode54. fold (bytes s).
    by rewrite decode54_loop_invalid. }
  split; [done|]. split; [by vm_compute|]. split; [done|].
  split; [done|]. split; [done|]. split; [apply decodeMap_invalid|].
  intros i c Hi.
  assert (Hc : c ∈ alphabet) by (by eapply list_elem_of_lookup_2).
  destruct (decodeMap_alphabet c Hc) as (Hd & Hp & _ & Hne).
  split; [|done]. rewrite <- (alphabet_lookup_position i c Hi), <- Hd.
  unfold byte_to_Z, byte_of_Z.
  pose proof (N_ascii_bounded (decodeMap_at c)) as Hb.
  rewrite Z.mod_small by lia.
  by rewrite N2Z.id, ascii_N_embedding.
Qed.

Lemma decode_invalid_byte_witness :
  Parse "6v!F" = (Invalid, Some ErrorInvalidByte).
Proof.
  apply (decode_invalid_byte "6v!F").
  by apply (bool_decide_unpack _).
Defined.

(** C6. For every [int64] value [id]: when [id < 0], [base54] fails with
    [ErrorInvalid] and the empty string; when [0 <= id], it succeeds with a
    string over the alphabet whose numeric value is [id], of one to eleven
    symbols, which is the single symbol at position [id] when [id < 54],
    does not start with the zero symbol when [54 <= id], and is no longer
    than any other non-empty string over the alphabet with that value. *)
Theorem base54_shortest (id : ID) :
  is_int64 id ->
  (id < 0 -> base54 id = Ret (EmptyString, Some ErrorInvalid))
  /\ (0 <= id ->
      exists s : list byte,
        base54 id = Ret (string_of_list_ascii s, None)
        /\ Forall (fun c => c ∈ alphabet) s
        /\ numeric_value s = id
        /\ (1 <= length s <= 11)%nat
        /\ (id < 54 -> alphabet !! Z.to_nat id = Some (s !!! 0%nat) /\ length s = 1%nat)
        /\ (54 <= id -> head s <> Some zero_symbol)
        /\ (forall s' : list byte,
              s' <> [] -> Forall (fun c => c ∈ alphabet) s' ->
              numeric_value s' = id -> (length s <= length s')%nat)).
Proof.
  intros Hint. split; [apply base54_negative|].
  intros Hid. unfold is_int64 in Hint.
  destruct (base54_nonneg id ltac:(lia)) as (s & Hcan & Hs & Hval & Hlen & Hb).
  exists s. split; [done|split; [done|split; [done|split; [done|split; [|split]]]]].
  - intros Hlt. destruct s as [|c0 [|c1 cs]]; [done| |].
    + split; [|done]. rewrite numeric_value_cons in Hval. cbn [foldl] in Hval.
      rewrite Forall_singleton in Hs.
      destruct (decodeMap_alphabet c0 Hs) as (_ & _ & Hl & _). by rewrite <- Hval.
    + pose proof (canonical_lower c0 (c1 :: cs) Hcan Hs ltac:(done)) as Hl.
      assert (54 <= 54 ^ Z.of_nat (length (c1 :: cs))).
      { cbn [length]. rewrite Nat2Z.inj_succ, Z.pow_succ_r by lia.
        assert (0 < 54 ^ Z.of_nat (length cs)) by (apply Z.pow_pos_nonneg; lia). lia. }
      lia.
  - intros Hge. destruct s as [|c0 [|c1 cs]]; [done| |].
    + rewrite numeric_value_cons in Hval. cbn [foldl] in Hval.
      rewrite Forall_singleton in Hs. pose proof (position_alphabet c0 Hs). lia.
    + cbn [head]. cbn [canonical] in Hcan. congruence.
  - intros s' Hne Hs' Hv'. apply canonical_shortest; congruence.
Qed.

Lemma base54_shortest_witness :
  is_int64 123123 /\
  exists s : list byte,
    base54 123123 = Ret (string_of_list_ascii s, None)
    /\ Forall (fun c => c ∈ alphabet) s
    /\ numeric_value s = 123123
    /\ (1 <= length s <= 11)%nat.
Proof.
  assert (Hint : is_int64 123123) by (unfold is_int64; lia).
  split; [exact Hint|].
  destruct (base54_shortest 123123 Hint) as [_ H].
  destruct (H ltac:(lia)) as (s & H1 & H2 & H3 & H4 & _).
  by exists s.
Defined.

(** C10. [Parse] checks no length: on a string over the alphabet, of any
    length, the result is decided by the wrapped value of the digit-by-digit
    accumulation alone, and the empty string decodes to 0 with no error. *)
Theorem decode_no_length_check (s : string) :
  Forall (fun c => c ∈ alphabet) (bytes s) ->
  Parse s = (if decide (int64_wrap (numeric_value (bytes s)) < 0)
             then (Invalid, Some ErrorInvalid)
             else (int64_wrap (numeric_value (bytes s)), None))
  /\ Parse EmptyString = (0, None)
  /\ decode54 [] = (0, None).
Proof.
  intros Hs. split; [|split; by vm_compute].
  unfold Parse. fold (bytes s). by apply decode54_valid.
Qed.

Lemma decode_no_length_check_witness :
  (11 < String.length "gggggggggggggggg6vF")%nat
  /\ Parse "gggggggggggggggg6vF" = (123123, None).
Proof.
  split; [cbn; lia|].
  destruct (decode_no_length_check "gggggggggggggggg6vF") as (H & _).
  - by apply (bool_decide_unpack _).
  - rewrite H. by vm_compute.
Defined.

(** ** The generator *)

(** C2, as stated, fails: with the machine identifier configured and a
    clock that moves from [2^42 - 1] to [2^42] milliseconds, the second ID
    is negative and so below the first; the timestamp no longer fits its
    42 bits and the shift wraps. *)
Lemma Generate_timestamp_overflow_counterexample :
  SetMachineId "arn" 35 generator_init
    = Ret {| machineId := 355; machineSequence := 0; previous := 0 |}
  /\ Sorted Z.le [4398046511103; 4398046511104]
  /\ Generate_n 2 {| machineId := 355; machineSequence := 0; previous := 0 |}
                [4398046511103; 4398046511104]
     = Ret ([9223372036854132736; -9223372036853321728],
            {| machineId := 355; machineSequence := 0; previous := 4398046511104 |},
            [])
  /\ ~ 9223372036854132736 < -9223372036853321728.
Proof.
  split; [by vm_compute|]. split; [repeat constructor; lia|].
  split; [by vm_compute|lia].
Qed.

(** C2, amended. Take a generator whose machine identifier is configured
    and whose sequence number and last timestamp lie within their fields,
    and clock readings that never decrease, are not before the last
    timestamp, and all lie in [0, 2^42). Then [n] calls in sequence never
    panic; when they return, they return [n] IDs that are strictly
    increasing in call order and pairwise distinct; and they do return as
    soon as the clock is seen to advance [n] times. *)
Theorem Generate_strictly_increasing (n : nat) (g : generator) (readings : clock) :
  0 <= machineId g < 512 ->
  0 <= machineSequence g < 4096 ->
  timestamp_ok (previous g) ->
  Sorted Z.le readings ->
  Forall (fun t => previous g <= t /\ timestamp_ok t) readings ->
  Generate_n n g readings <> Panic
  /\ (forall ids g' rest,
        Generate_n n g readings = Ret (ids, g', rest) ->
        length ids = n /\ StronglySorted Z.lt ids /\ NoDup ids)
  /\ ((n <= advances (previous g) readings)%nat ->
      exists ids g' rest, Generate_n n g readings = Ret (ids, g', rest)).
Proof.
  intros Hm Hseq Hprev Hsorted Hall.
  assert (Hinv : gen_inv g readings).
  { unfold gen_inv. repeat (split; [done|]). split; [|done].
    apply Sorted.Sorted_StronglySorted; [|done]. intros x y z. lia. }
  pose proof (Generate_n_cases n g readings Hinv) as HG.
  destruct (Generate_n n g readings) as [[[ids g'] rest]| |]; [|done|].
  - destruct HG as (Hlen & _ & Hs & _).
    split; [done|]. split; [|by eauto].
    intros ids' g'' rest' [= <- <- <-].
    split; [done|]. split; [done|]. by apply StronglySorted_lt_NoDup.
  - split; [done|]. split; [done|]. lia.
Qed.

Lemma Generate_strictly_increasing_witness :
  Generate_n 3 {| machineId := 355; machineSequence := 4095; previous := 5 |}
             [5; 5; 6; 6; 8; 9]
  = Ret ([14036992; 14036993; 18231296],
         {| machineId := 355; machineSequence := 0; previous := 8 |}, [9])
  /\ StronglySorted Z.lt [14036992; 14036993; 18231296]
  /\ NoDup [14036992; 14036993; 18231296].
Proof.
  assert (Hrun : Generate_n 3
            {| machineId := 355; machineSequence := 4095; previous := 5 |}
            [5; 5; 6; 6; 8; 9]
          = Ret ([14036992; 14036993; 18231296],
                 {| machineId := 355; machineSequence := 0; previous := 8 |}, [9]))
    by (by vm_compute).
  split; [exact Hrun|].
  destruct (Generate_strictly_increasing 3
              {| machineId := 355; machineSequence := 4095; previous := 5 |}
              [5; 5; 6; 6; 8; 9]) as (_ & H & _).
  - cbn. lia.
  - cbn. lia.
  - by vm_compute.
  - repeat constructor; lia.
  - repeat constructor; (cbn; lia) || by vm_compute.
  - destruct (H _ _ _ Hrun) as (_ & Hs & Hn). by split.
Defined.

(** C7. For every timestamp [t] in [0, 2^42), machine identifier [m] in
    [0, 512) and sequence number [s] in [0, 4096), the ID assembled as
    [(t << 21) | (m << 12) | s] gives back [m] through [MachineId], [s]
    through [MachineSequence] and [t + Epoch] through [Time]. The three
    accessors are functions of the integer alone: they take no generator
    state and return none. *)
Theorem accessors_extract_fields (t m s : Z) :
  0 <= t < 2 ^ 42 -> 0 <= m < 512 -> 0 <= s < 4096 ->
  let id : ID := Z.lor (Z.lor (int64_wrap (Z.shiftl t 21)) (int64_wrap (Z.shiftl m 12))) s in
  MachineId id = m /\ MachineSequence id = s /\ Time id = t + Epoch.
Proof. intros Ht Hm Hs. by apply (pack_fields t m s). Qed.

Lemma accessors_extract_fields_witness :
  MachineId 305023354946072576 = 35
  /\ MachineSequence 305023354946072576 = 0
  /\ Time 305023354946072576 = 145446469758 + Epoch.
Proof.
  apply (accessors_extract_fields 145446469758 35 0); lia.
Defined.

(** C8. From every state a process can reach, when all clock readings
    offered to a call lie in [0, 2^42), the ID that [Generate] returns is
    non-negative and is not the sentinel -1. *)
Theorem Generate_nonnegative (g : generator) (readings : clock)
    (id : ID) (g' : generator) (rest : clock) :
  reachable g ->
  Forall timestamp_ok readings ->
  Generate g readings = Ret (id, g', rest) ->
  0 <= id /\ id <> Invalid.
Proof.
  intros Hr Hall Hgen. pose proof (reachable_machineId g Hr) as Hm.
  pose proof (Generate_cases g readings) as HG. rewrite Hgen in HG.
  destruct HG as (sk & now & seq0 & -> & Hasm & _).
  injection Hasm as -> _.
  apply Forall_app in Hall as [_ Hall]. apply Forall_cons in Hall as [Hnow _].
  pose proof (pack_nonneg now (machineId g) _ Hnow Hm (seq_next_range seq0)) as Hp.
  unfold Invalid. lia.
Qed.

Lemma Generate_nonnegative_witness :
  Generate {| machineId := 355; machineSequence := 0; previous := 0 |} [6; 7]
  = Ret (14036992, {| machineId := 355; machineSequence := 0; previous := 6 |}, [7])
  /\ 0 <= 14036992 /\ 14036992 <> Invalid.
Proof.
  split; [by vm_compute|].
  apply (Generate_nonnegative
           {| machineId := 355; machineSequence := 0; previous := 0 |}
           [6; 7] 14036992
           {| machineId := 355; machineSequence := 0; previous := 6 |} [7]).
  - apply (reachable_set "arn" 35 generator_init); [apply reachable_init|by vm_compute].
  - repeat constructor; by vm_compute.
  - by vm_compute.
Defined.

(** ** JSON *)

(** C9, as stated, fails: encoding the sentinel fails with [ErrorInvalid],
    but [String] replaces the failure by the empty string, so [MarshalJSON]
    returns two double quotes and no error. *)
Lemma MarshalJSON_masks_error_counterexample :
  base54 Invalid = Ret (EmptyString, Some ErrorInvalid)
  /\ MarshalJSON json_Marshal_plain Invalid = Ret ([quote; quote], None).
Proof. split; by vm_compute. Qed.

(** C9, amended. Let [json.Marshal] put a string over the alphabet, or the
    empty string, between double quotes. Then for every [int64] value
    [id >= 0], [MarshalJSON] returns the base-54 encoding of [id] between
    double quotes with no error; for every [id < 0] the encoding failure is
    not passed on: [MarshalJSON] returns the empty string between double
    quotes with no error. *)
Theorem MarshalJSON_quotes (json_Marshal : string -> list byte * error) (id : ID) :
  (forall s : string,
      Forall (fun c => c ∈ alphabet) (bytes s) ->
      json_Marshal s = (quote :: bytes s ++ [quote], None)) ->
  is_int64 id ->
  (0 <= id ->
   exists s : string,
     base54 id = Ret (s, None)
     /\ MarshalJSON json_Marshal id = Ret (quote :: bytes s ++ [quote], None))
  /\ (id < 0 ->
      base54 id = Ret (EmptyString, Some ErrorInvalid)
      /\ MarshalJSON json_Marshal id = Ret ([quote; quote], None)).
Proof.
  intros HM Hint. unfold is_int64 in Hint. split.
  - intros Hid. destruct (base54_nonneg id ltac:(lia)) as (s & _ & Hs & _ & _ & Hb).
    exists (string_of_list_ascii s). split; [done|].
    unfold MarshalJSON, String_. rewrite Hb. cbn [obind].
    rewrite HM; unfold bytes; by rewrite list_ascii_of_string_of_list_ascii.
  - intros Hid. split; [by apply base54_negative|].
    unfold MarshalJSON, String_. rewrite (base54_negative id Hid). cbn [obind].
    by rewrite HM.
Qed.

Lemma MarshalJSON_quotes_witness :
  MarshalJSON json_Marshal_plain 123123 = Ret (quote :: bytes "6vF" ++ [quote], None).
Proof.
  destruct (MarshalJSON_quotes json_Marshal_plain 123123) as [H _].
  - intros s _. reflexivity.
  - unfold is_int64. lia.
  - destruct (H ltac:(lia)) as (s & Hb & HMar).
    rewrite HMar. assert (s = "6vF"%string) as -> by (vm_compute in Hb; congruence).
    done.
Defined.


(** * Further properties of the code *)

(** ** The region table and [SetMachineId] *)

Lemma region_in_spec row region : region_in row region = true <-> region ∈ row.
Proof.
  induction row as [|r row IH]; cbn [region_in].
  - split; [done|]. by intros ?%elem_of_nil.
  - destruct (decide (r = region)) as [->|Hne].
    + split; [intros _; apply list_elem_of_here|done].
    + rewrite IH. split; [apply list_elem_of_further|].
      intros [?|?]%elem_of_cons; [congruence|done].
Qed.

Lemma getContinentCode_from_spec rows region :
  forall i,
  let c := getContinentCode_from rows i region in
  (c = -1 /\ forall row, row ∈ rows -> region ∉ row)
  \/ (i <= c < i + Z.of_nat (length rows)
      /\ exists row, rows !! Z.to_nat (c - i) = Some row /\ region ∈ row
         /\ forall j row', (j < Z.to_nat (c - i))%nat ->
                           rows !! j = Some row' -> region ∉ row').
Proof.
  induction rows as [|row rows IH]; intros i; cbn [getContinentCode_from length].
  - left. split; [done|]. by intros row ?%elem_of_nil.
  - destruct (region_in row region) eqn:Hin.
    + right. split; [lia|]. exists row. rewrite Z.sub_diag.
      split; [done|]. split; [by apply region_in_spec|]. intros j row' Hj. cbn in Hj. lia.
    + assert (Hnot : region ∉ row).
      { intros H%region_in_spec. congruence. }
      destruct (IH (i + 1)) as [[Hc Hall]|(Hc & row' & Hl & Hr & Hearlier)].
      * left. split; [done|]. intros row' [->|?]%elem_of_cons; [done|by apply Hall].
      * right. split; [lia|]. exists row'.
        set (c := getContinentCode_from rows (i + 1) region) in *.
        replace (Z.to_nat (c - i)) with (S (Z.to_nat (c - (i + 1)))) by lia.
        split; [done|]. split; [done|].
        intros [|j] row'' Hj Hl''; cbn in Hl''; [congruence|].
        apply (Hearlier j); [lia|done].
Qed.

(** X1. [getContinentCode] returns -1 exactly when the region is listed in
    no row of [continents]; otherwise it returns the index, between 0 and 6,
    of the first row that lists the region. *)
Theorem getContinentCode_first_row (region : string) :
  (getContinentCode region = -1
   /\ forall row, row ∈ continents -> region ∉ row)
  \/ (0 <= getContinentCode region < 7
      /\ exists row,
           continents !! Z.to_nat (getContinentCode region) = Some row
           /\ region ∈ row
           /\ forall j row', (j < Z.to_nat (getContinentCode region))%nat ->
                             continents !! j = Some row' -> region ∉ row').
Proof.
  pose proof (getContinentCode_from_spec continents region 0) as H.
  cbn zeta in H. fold (getContinentCode region) in H.
  change (Z.of_nat (length continents)) with 7 in H.
  rewrite Z.sub_0_r in H. destruct H as [H|[H1 H2]]; [by left|right].
  split; [lia|done].
Qed.

Lemma getContinentCode_range region :
  getContinentCode region = -1 \/ 0 <= getContinentCode region < 7.
Proof.
  pose proof (getContinentCode_from_range continents region 0) as H.
  fold (getContinentCode region) in H.
  change (Z.of_nat (length continents)) with 7 in H. lia.
Qed.

Lemma getContinentCode_unknown region :
  getContinentCode region = -1 <-> forall row, row ∈ continents -> region ∉ row.
Proof.
  pose proof (getContinentCode_from_spec continents region 0) as H.
  cbn zeta in H. fold (getContinentCode region) in H. rewrite Z.sub_0_r in H.
  destruct H as [[H1 H2]|(H1 & row & Hl & Hin & _)].
  - by split.
  - split; [lia|]. intros Hall. exfalso.
    apply (Hall row); [by eapply list_elem_of_lookup_2|done].
Qed.

(** The machine identifier as arithmetic: continent times 64 plus index. *)
Lemma SetMachineId_eq region index g :
  SetMachineId region index g =
    if decide (getContinentCode region = -1 \/ index < 0 \/ 64 <= index)
    then Panic
    else Ret {| machineId := getContinentCode region * 64 + index;
                machineSequence := machineSequence g;
                previous := previous g |}.
Proof.
  unfold SetMachineId, bitsMachineID.
  change (2 ^ (9 - 3)) with 64. change (9 - 3) with 6.
  pose proof (getContinentCode_range region) as Hc.
  set (continent := getContinentCode region) in *.
  destruct (decide (continent < 0 \/ index < 0 \/ index >= 64)) as [Hp|Hn];
    destruct (decide (continent = -1 \/ index < 0 \/ 64 <= index)) as [Hp'|Hn'];
    try done; try (exfalso; lia).
  do 2 f_equal.
  change 7 with (Z.ones 3). change (int64_wrap (64 - 1)) with (Z.ones 6).
  rewrite !Z.land_ones by lia.
  rewrite (Z.mod_small continent), (Z.mod_small index) by lia.
  rewrite int64_wrap_id by (rewrite Z.shiftl_mul_pow2 by lia; unfold is_int64; lia).
  rewrite lor_shiftl_low by lia. lia.
Qed.

(** X2. [SetMachineId] panics exactly when the region is listed in no row of
    [continents], or the index is negative, or the index is 64 or more. *)
Theorem SetMachineId_panics_iff (region : string) (index : Z) (g : generator) :
  SetMachineId region index g = Panic
  <-> (forall row, row ∈ continents -> region ∉ row) \/ index < 0 \/ 64 <= index.
Proof.
  rewrite SetMachineId_eq, <- getContinentCode_unknown.
  destruct (decide _); [done|]. split; [done|]. intros H. by exfalso.
Qed.

(** X3. When [SetMachineId] returns, the continent code is in [0, 7) and the
    index in [0, 64); the machine identifier is continent * 64 + index,
    below 448, its upper bits ([>> 6]) are the continent code and its lower
    six bits the index; the sequence number and the last timestamp are left
    as they were. *)
Theorem SetMachineId_continent_index (region : string) (index : Z) (g g' : generator) :
  SetMachineId region index g = Ret g' ->
  0 <= getContinentCode region < 7
  /\ 0 <= index < 64
  /\ machineId g' = getContinentCode region * 64 + index
  /\ Z.shiftr (machineId g') 6 = getContinentCode region
  /\ Z.land (machineId g') 63 = index
  /\ 0 <= machineId g' < 448
  /\ machineSequence g' = machineSequence g
  /\ previous g' = previous g.
Proof.
  rewrite SetMachineId_eq. pose proof (getContinentCode_range region) as Hc.
  destruct (decide _) as [|Hn]; [done|]. intros [= <-].
  cbn [machineId machineSequence previous].
  assert (0 <= getContinentCode region < 7) by lia.
  assert (0 <= index < 64) by lia.
  split; [done|]. split; [done|]. split; [done|].
  split; [|split; [|split; [lia|done]]].
  - rewrite Z.shiftr_div_pow2 by lia. change (2 ^ 6) with 64.
    rewrite Z.add_comm, Z.div_add by lia. rewrite Z.div_small; lia.
  - change 63 with (Z.ones 6). rewrite Z.land_ones by lia. change (2 ^ 6) with 64.
    rewrite Z.add_comm, Z.mod_add by lia. apply Z.mod_small. lia.
Qed.

Lemma SetMachineId_continent_index_witness :
  SetMachineId "arn" 35 generator_init
  = Ret {| machineId := 355; machineSequence := 0; previous := 0 |}
  /\ Z.shiftr 355 6 = getContinentCode "arn" /\ Z.land 355 63 = 35.
Proof.
  assert (H : SetMachineId "arn" 35 generator_init
              = Ret {| machineId := 355; machineSequence := 0; previous := 0 |})
    by (by vm_compute).
  split; [exact H|].
  destruct (SetMachineId_continent_index _ _ _ _ H) as (_ & _ & _ & H1 & H2 & _).
  split; [exact H1|exact H2].
Defined.

(** X4. Two successful calls of [SetMachineId] that yield the same machine
    identifier were given regions of the same continent and the same index. *)
Theorem SetMachineId_injective (r1 r2 : string) (i1 i2 : Z) (g1 g2 g1' g2' : generator) :
  SetMachineId r1 i1 g1 = Ret g1' ->
  SetMachineId r2 i2 g2 = Ret g2' ->
  machineId g1' = machineId g2' ->
  getContinentCode r1 = getContinentCode r2 /\ i1 = i2.
Proof.
  rewrite !SetMachineId_eq.
  pose proof (getContinentCode_range r1). pose proof (getContinentCode_range r2).
  destruct (decide _) as [|Hn1]; [done|]. intros [= <-].
  destruct (decide _) as [|Hn2]; [done|]. intros [= <-].
  cbn [machineId]. lia.
Qed.

Lemma SetMachineId_injective_witness :
  getContinentCode "fra" = getContinentCode "arn" /\ 35 = 35.
Proof.
  apply (SetMachineId_injective "fra" "arn" 35 35 generator_init generator_init
           {| machineId := 355; machineSequence := 0; previous := 0 |}
           {| machineId := 355; machineSequence := 0; previous := 0 |});
    by vm_compute.
Defined.

(** ** [Generate] *)

(** X5. [Generate] panics exactly when the first clock reading of the call
    is before the last recorded timestamp; readings taken while waiting
    never make it panic. *)
Theorem Generate_panics_iff (g : generator) (readings : clock) :
  Generate g readings = Panic
  <-> exists now rest, readings = now :: rest /\ now < previous g.
Proof.
  split.
  - intros H. pose proof (Generate_cases g readings) as HG. by rewrite H in HG.
  - intros (now & rest & -> & Hlt). cbn [Generate].
    destruct (decide (now = previous g /\ _)) as [[? _]|_]; [lia|].
    destruct (decide (now > previous g)); [lia|].
    by destruct (decide (now < previous g)).
Qed.

Lemma spin_stuck prev skipped :
  forall now, now <= prev -> Forall (fun t => t <= prev) skipped ->
  spin prev now skipped = OutOfFuel.
Proof.
  induction skipped as [|t sk IH]; intros now Hnow Hall; cbn [spin];
    (destruct (decide (now <= prev)); [|lia]); [done|].
  apply Forall_cons in Hall as [Ht Hall]. by apply IH.
Qed.

Lemma spin_resumes prev skipped t rest :
  forall now, now <= prev -> Forall (fun t => t <= prev) skipped -> prev < t ->
  spin prev now (skipped ++ t :: rest) = Ret (t, rest).
Proof.
  induction skipped as [|t' sk IH]; intros now Hnow Hall Ht; cbn [spin app];
    (destruct (decide (now <= prev)); [|lia]).
  - destruct rest; cbn [spin]; (destruct (decide (t <= prev)); [lia|done]).
  - apply Forall_cons in Hall as [Ht' Hall]. by apply IH.
Qed.

Lemma spin_skipped prev rs :
  forall now now' rest, now <= prev ->
  spin prev now rs = Ret (now', rest) ->
  exists skipped,
    rs = skipped ++ now' :: rest /\ Forall (fun t => t <= prev) skipped /\ prev < now'.
Proof.
  induction rs as [|t rs IH]; intros now now' rest Hnow H; cbn [spin] in H;
    (destruct (decide (now <= prev)); [|lia]); [done|].
  destruct (decide (t <= prev)) as [Ht|Ht].
  - destruct (IH t now' rest Ht H) as (sk & -> & Hall & Hlt).
    exists (t :: sk). split; [done|]. split; [by constructor|done].
  - assert (spin prev t rs = Ret (t, rs)) as Heq.
    { destruct rs; cbn [spin]; (destruct (decide (t <= prev)); [lia|done]). }
    rewrite Heq in H. injection H as <- <-. exists []. split; [done|].
    split; [constructor|lia].
Qed.

(** X6. Whatever the state and the clock, when [Generate] returns it has
    left the machine identifier unchanged, a sequence number in [0, 4096)
    and a timestamp not before the last one; the ID is the packing of
    exactly these three stored values; and the recorded timestamp is the
    last reading the call took, every reading skipped before it being at
    most the last timestamp. *)
Theorem Generate_state (g : generator) (readings : clock)
    (id : ID) (g' : generator) (rest : clock) :
  Generate g readings = Ret (id, g', rest) ->
  machineId g' = machineId g
  /\ 0 <= machineSequence g' < 4096
  /\ previous g <= previous g'
  /\ id = pack (previous g') (machineId g') (machineSequence g')
  /\ exists skipped,
       readings = skipped ++ previous g' :: rest
       /\ Forall (fun t => t <= previous g) skipped.
Proof.
  intros H. destruct readings as [|now rs]; [done|]. cbn [Generate] in H.
  pose proof (seq_next_range (machineSequence g)) as Hs.
  pose proof (seq_next_range (-1)) as Hs'.
  destruct (decide (now = previous g /\ _)) as [[Hnow Hseq]|Hn].
  - destruct (spin (previous g) now rs) as [[now' rest']| |] eqn:Hspin;
      cbn [obind] in H; [|done..].
    apply spin_skipped in Hspin as (sk & -> & Hall & Hlt); [|lia].
    injection H as <- <- <-. cbn [assemble machineId machineSequence previous].
    split; [done|]. split; [done|]. split; [lia|]. split; [done|].
    exists (now :: sk). split; [done|]. constructor; [lia|done].
  - destruct (decide (now > previous g)).
    + injection H as <- <- <-. cbn [assemble machineId machineSequence previous].
      split; [done|]. split; [done|]. split; [lia|]. split; [done|].
      by exists [].
    + destruct (decide (now < previous g)); [done|].
      injection H as <- <- <-. cbn [assemble machineId machineSequence previous].
      split; [done|]. split; [done|]. split; [lia|]. split; [done|].
      by exists [].
Qed.

Lemma Generate_state_witness :
  0 <= 0 < 4096 /\ 5 <= 6
  /\ 14036992 = pack 6 355 0
  /\ exists skipped, [5; 5; 6; 7] = skipped ++ 6 :: [7]
                     /\ Forall (fun t => t <= 5) skipped.
Proof.
  destruct (Generate_state
              {| machineId := 355; machineSequence := 4095; previous := 5 |}
              [5; 5; 6; 7] 14036992
              {| machineId := 355; machineSequence := 0; previous := 6 |} [7])
    as (_ & H2 & H3 & H4 & H5); [by vm_compute|].
  split; [exact H2|]. split; [exact H3|]. split; [exact H4|exact H5].
Defined.

(** X7. From a reachable state and with readings in [0, 2^42), the ID that
    [Generate] returns gives back the configured machine identifier through
    [MachineId], the stored sequence number through [MachineSequence], and
    the stored timestamp plus [Epoch] through [Time]. *)
Theorem Generate_accessors (g : generator) (readings : clock)
    (id : ID) (g' : generator) (rest : clock) :
  reachable g ->
  Forall timestamp_ok readings ->
  Generate g readings = Ret (id, g', rest) ->
  MachineId id = machineId g
  /\ MachineSequence id = machineSequence g'
  /\ Time id = previous g' + Epoch.
Proof.
  intros Hr Hall Hgen. pose proof (reachable_machineId g Hr) as Hm.
  pose proof (Generate_cases g readings) as HG. rewrite Hgen in HG.
  destruct HG as (sk & now & seq0 & -> & Hasm & _).
  injection Hasm as -> ->. cbn [machineSequence previous].
  apply Forall_app in Hall as [_ Hall]. apply Forall_cons in Hall as [Hnow _].
  apply pack_fields; [done..|apply seq_next_range].
Qed.

Lemma Generate_accessors_witness :
  MachineId 14036992 = 355 /\ MachineSequence 14036992 = 0
  /\ Time 14036992 = 6 + Epoch.
Proof.
  apply (Generate_accessors
           {| machineId := 355; machineSequence := 0; previous := 0 |}
           [6; 7] 14036992
           {| machineId := 355; machineSequence := 0; previous := 6 |} [7]).
  - apply (reachable_set "arn" 35 generator_init); [apply reachable_init|by vm_compute].
  - repeat constructor; by vm_compute.
  - by vm_compute.
Defined.

Lemma Generate_stuck g readings :
  machineSequence g = 4095 ->
  Forall (fun t => t <= previous g) readings ->
  Generate g (previous g :: readings) = OutOfFuel.
Proof.
  intros Hseq Hall. cbn [Generate].
  destruct (decide (previous g = previous g /\ _)) as [_|Hn].
  - by rewrite spin_stuck.
  - exfalso. apply Hn. by rewrite Hseq.
Qed.

(** X8. With the sequence number at 4095 and the clock still at the last
    timestamp, [Generate] does not return as long as the readings do not
    pass that timestamp, even if some fall below it. *)
Theorem Generate_exhausted_waits (g : generator) (readings : clock) :
  machineSequence g = 4095 ->
  Forall (fun t => t <= previous g) readings ->
  Generate g (previous g :: readings) = OutOfFuel.
Proof. apply Generate_stuck. Qed.

Lemma Generate_exhausted_waits_witness :
  Generate {| machineId := 355; machineSequence := 4095; previous := 5 |}
           [5; 5; 4; 5] = OutOfFuel.
Proof.
  apply (Generate_exhausted_waits
           {| machineId := 355; machineSequence := 4095; previous := 5 |} [5; 4; 5]).
  - reflexivity.
  - repeat constructor; cbn; lia.
Defined.

(** X9. With the sequence number at 4095 and the clock still at the last
    timestamp, [Generate] skips the readings up to the first one past that
    timestamp and returns the ID of that reading with sequence number 0. *)
Theorem Generate_exhausted_resumes (g : generator) (skipped : clock) (t : Z)
    (rest : clock) :
  machineSequence g = 4095 ->
  Forall (fun t' => t' <= previous g) skipped ->
  previous g < t ->
  Generate g (previous g :: skipped ++ t :: rest)
  = Ret (pack t (machineId g) 0,
         {| machineId := machineId g; machineSequence := 0; previous := t |},
         rest).
Proof.
  intros Hseq Hall Ht. cbn [Generate].
  destruct (decide (previous g = previous g /\ _)) as [_|Hn].
  - rewrite spin_resumes by (done || lia). cbn [obind]. unfold assemble.
    by rewrite Hseq.
  - exfalso. apply Hn. by rewrite Hseq.
Qed.

Lemma Generate_exhausted_resumes_witness :
  Generate {| machineId := 355; machineSequence := 4095; previous := 5 |}
           [5; 5; 4; 6; 6]
  = Ret (pack 6 355 0,
         {| machineId := 355; machineSequence := 0; previous := 6 |}, [6]).
Proof.
  apply (Generate_exhausted_resumes
           {| machineId := 355; machineSequence := 4095; previous := 5 |}
           [5; 4] 6 [6]).
  - reflexivity.
  - repeat constructor; cbn; lia.
  - cbn. lia.
Defined.

Lemma Generate_same_ms g rest :
  0 <= machineSequence g < 4095 ->
  Generate g (previous g :: rest)
  = Ret (pack (previous g) (machineId g) (machineSequence g + 1),
         {| machineId := machineId g; machineSequence := machineSequence g + 1;
            previous := previous g |}, rest).
Proof.
  intros Hseq. cbn [Generate].
  destruct (decide (previous g = previous g /\ _)) as [[_ Heq]|_].
  { unfold bitMapMachineSequence, bitsMachineSequence in Heq. lia. }
  destruct (decide (previous g > previous g)); [lia|].
  destruct (decide (previous g < previous g)); [lia|].
  unfold assemble. by rewrite seq_next_succ.
Qed.

Lemma Generate_new_ms g t rest :
  previous g < t ->
  Generate g (t :: rest)
  = Ret (pack t (machineId g) 0,
         {| machineId := machineId g; machineSequence := 0; previous := t |}, rest).
Proof.
  intros Ht. cbn [Generate].
  destruct (decide (t = previous g /\ _)) as [[? _]|_]; [lia|].
  by destruct (decide (t > previous g)); [|lia].
Qed.

Lemma Generate_n_same_ms k :
  forall g rest,
  0 <= machineSequence g -> machineSequence g + Z.of_nat k <= 4095 ->
  Generate_n k g (replicate k (previous g) ++ rest)
  = Ret (pack (previous g) (machineId g) <$> seqZ (machineSequence g + 1) (Z.of_nat k),
         {| machineId := machineId g;
            machineSequence := machineSequence g + Z.of_nat k;
            previous := previous g |}, rest).
Proof.
  induction k as [|k IH]; intros g rest Hs Hk.
  - cbn. rewrite Z.add_0_r. by destruct g.
  - cbn [Generate_n replicate app].
    rewrite Generate_same_ms by lia. cbn [obind].
    set (g1 := {| machineId := machineId g;
                  machineSequence := machineSequence g + 1;
                  previous := previous g |}).
    change (previous g) with (previous g1) at 1.
    rewrite (IH g1 rest) by (cbn; lia). cbn [obind machineId machineSequence previous g1].
    rewrite (seqZ_cons (machineSequence g + 1) (Z.of_nat (S k))) by lia.
    cbn [fmap list_fmap].
    replace (Z.succ (machineSequence g + 1)) with (machineSequence g + 1 + 1) by lia.
    replace (Z.pred (Z.of_nat (S k))) with (Z.of_nat k) by lia.
    by replace (machineSequence g + Z.of_nat (S k))
      with (machineSequence g + 1 + Z.of_nat k) by lia.
Qed.

Lemma Generate_n_app n :
  forall m g readings,
  Generate_n (n + m) g readings
  = (do r <- Generate_n n g readings ;;
     do r' <- Generate_n m r.1.2 r.2 ;;
     Ret (r.1.1 ++ r'.1.1, r'.1.2, r'.2)).
Proof.
  induction n as [|n IH]; intros m g readings.
  - cbn. by destruct (Generate_n m g readings) as [[[? ?] ?]| |].
  - cbn [Generate_n Nat.add].
    destruct (Generate g readings) as [[[id g1] rs1]| |]; cbn [obind]; [|done..].
    rewrite IH.
    destruct (Generate_n n g1 rs1) as [[[ids g2] rs2]| |];
      cbn [obind fst snd]; [|done..].
    by destruct (Generate_n m g2 rs2) as [[[? ?] ?]| |].
Qed.

Lemma Generate_n_new_ms n g t rest :
  previous g < t ->
  (1 <= n <= 4096)%nat ->
  Generate_n n g (replicate n t ++ rest)
  = Ret (pack t (machineId g) <$> seqZ 0 (Z.of_nat n),
         {| machineId := machineId g;
            machineSequence := Z.of_nat n - 1;
            previous := t |}, rest).
Proof.
  intros Ht Hn. destruct n as [|n]; [lia|].
  cbn [Generate_n replicate app]. rewrite Generate_new_ms by done. cbn [obind].
  set (g1 := {| machineId := machineId g; machineSequence := 0; previous := t |}).
  change t with (previous g1) at 1.
  rewrite (Generate_n_same_ms n g1 rest) by (cbn; lia).
  cbn [obind machineId machineSequence previous g1].
  rewrite (seqZ_cons 0 (Z.of_nat (S n))) by lia. cbn [fmap list_fmap].
  replace (Z.succ 0) with (0 + 1) by lia.
  replace (Z.pred (Z.of_nat (S n))) with (Z.of_nat n) by lia.
  by replace (Z.of_nat (S n) - 1) with (0 + Z.of_nat n) by lia.
Qed.

(** X10. When the clock shows one and the same new millisecond [t], the
    first [n] calls, for [n] from 1 to 4096, each take one reading and
    return the IDs of [t] with the sequence numbers 0, 1, ..., n - 1 in this
    order. *)
Theorem Generate_within_millisecond (n : nat) (g : generator) (t : Z) (rest : clock) :
  previous g < t ->
  (1 <= n <= 4096)%nat ->
  Generate_n n g (replicate n t ++ rest)
  = Ret (pack t (machineId g) <$> seqZ 0 (Z.of_nat n),
         {| machineId := machineId g;
            machineSequence := Z.of_nat n - 1;
            previous := t |}, rest).
Proof. apply Generate_n_new_ms. Qed.

Lemma Generate_within_millisecond_witness :
  Generate_n 3 generator_init [7; 7; 7; 9]
  = Ret ([pack 7 0 0; pack 7 0 1; pack 7 0 2],
         {| machineId := 0; machineSequence := 2; previous := 7 |}, [9]).
Proof.
  apply (Generate_within_millisecond 3 generator_init 7 [9]).
  - cbn. lia.
  - lia.
Defined.

(** X11. 4097 calls never all return on readings of a single new
    millisecond, however many such readings there are: the 4097th waits for
    a later one. *)
Theorem Generate_sequence_limit (g : generator) (t : Z) (j : nat) :
  previous g < t ->
  Generate_n (4096 + 1) g (replicate (4096 + j) t) = OutOfFuel.
Proof.
  intros Ht. rewrite Generate_n_app, replicate_add.
  rewrite Generate_n_new_ms by (done || lia). cbn [obind fst snd Generate_n].
  destruct j as [|j]; [done|]. cbn [replicate].
  set (g1 := {| machineId := machineId g; machineSequence := Z.of_nat 4096 - 1;
                previous := t |}).
  change t with (previous g1) at 1.
  rewrite Generate_stuck; [done|by vm_compute|].
  apply Forall_replicate. cbn. lia.
Qed.

Lemma Generate_sequence_limit_witness :
  Generate_n (4096 + 1) generator_init (replicate (4096 + 2) 7) = OutOfFuel.
Proof. apply (Generate_sequence_limit generator_init 7 2). cbn. lia. Defined.

(** ** The bit layout *)

(** X12. For every ID in [0, 2^63), the three accessors return values within
    their fields, and packing [Time id - Epoch], [MachineId id] and
    [MachineSequence id] gives the ID back: a non-negative ID is determined
    by its three fields. *)
Theorem accessors_determine_id (id : ID) :
  0 <= id < 2 ^ 63 ->
  timestamp_ok (Time id - Epoch)
  /\ 0 <= MachineId id < 512
  /\ 0 <= MachineSequence id < 4096
  /\ pack (Time id - Epoch) (MachineId id) (MachineSequence id) = id.
Proof.
  intros Hid.
  unfold MachineId, MachineSequence, Time, bitMapMachineId, bitMapMachineSequence,
    bitsMachineID, bitsMachineSequence, timestamp_ok, bitsTimestamp, Epoch.
  change (9 + 12) with 21.
  change (2 ^ 9 - 1) with (Z.ones 9). change (2 ^ 12 - 1) with (Z.ones 12).
  rewrite !Z.land_ones, !Z.shiftr_div_pow2 by lia.
  assert (Ht : 0 <= id `div` 2 ^ 21 < 2 ^ 42).
  { split; [apply Z.div_pos; lia|]. apply Z.div_lt_upper_bound; lia. }
  rewrite int64_wrap_id by (unfold is_int64; lia).
  replace (id `div` 2 ^ 21 + 1577836801000 - 1577836801000) with (id `div` 2 ^ 21) by lia.
  pose proof (Z.mod_pos_bound (id `div` 2 ^ 12) (2 ^ 9) ltac:(lia)) as Hm.
  pose proof (Z.mod_pos_bound id (2 ^ 12) ltac:(lia)) as Hs.
  split; [done|]. split; [lia|]. split; [lia|].
  rewrite pack_sum by lia.
  pose proof (Z.div_mod id (2 ^ 12) ltac:(lia)) as H1.
  pose proof (Z.div_mod (id `div` 2 ^ 12) (2 ^ 9) ltac:(lia)) as H2.
  rewrite Z.div_div in H2 by lia. change (2 ^ 12 * 2 ^ 9) with (2 ^ 21) in H2.
  lia.
Qed.

Lemma accessors_determine_id_witness :
  pack (Time 305023354946072576 - Epoch) (MachineId 305023354946072576)
       (MachineSequence 305023354946072576) = 305023354946072576.
Proof. apply (accessors_determine_id 305023354946072576). lia. Defined.

(** ** The codec *)

Lemma decode54_loop_some b :
  forall acc r, decode54_loop b acc = Some r -> Forall (fun c => c ∈ alphabet) b.
Proof.
  induction b as [|c b IH]; intros acc r H; [constructor|].
  cbn [decode54_loop] in H.
  destruct (decide (decodeMap_at c = xFF)) as [|Hne]; [done|].
  constructor; [|by eapply IH].
  destruct (decide (c ∈ alphabet)) as [|Hn]; [done|].
  by apply decodeMap_invalid in Hn.
Qed.

Lemma decode54_outcomes (b : list byte) :
  (Forall (fun c => c ∈ alphabet) b
   /\ ((snd (decode54 b) = None /\ 0 <= fst (decode54 b) < 2 ^ 63)
       \/ decode54 b = (Invalid, Some ErrorInvalid)))
  \/ (Exists (fun c => c ∉ alphabet) b
      /\ decode54 b = (Invalid, Some ErrorInvalidByte)).
Proof.
  destruct (decide (Forall (fun c => c ∈ alphabet) b)) as [Hall|Hex].
  - left. split; [done|]. rewrite decode54_valid by done.
    pose proof (int64_wrap_range (numeric_value b)) as Hr. unfold is_int64 in Hr.
    destruct (decide (_ < 0)); [by right|left]. cbn. split; [done|lia].
  - right. apply not_Forall_Exists in Hex; [|intros c; apply _].
    split; [done|]. unfold decode54. by rewrite decode54_loop_invalid.
Qed.

(** X13. On any byte string [decode54] has one of three results: no error
    and a value in [0, 2^63), when all bytes are in the alphabet; the
    sentinel with [ErrorInvalid], again only when all bytes are in the
    alphabet; or the sentinel with [ErrorInvalidByte], when some byte is
    not. *)
Theorem decode54_sentinel (b : list byte) :
  (Forall (fun c => c ∈ alphabet) b
   /\ ((snd (decode54 b) = None /\ 0 <= fst (decode54 b) < 2 ^ 63)
       \/ decode54 b = (Invalid, Some ErrorInvalid)))
  \/ (Exists (fun c => c ∉ alphabet) b
      /\ decode54 b = (Invalid, Some ErrorInvalidByte)).
Proof. apply decode54_outcomes. Qed.

(** X14. [decode54] ignores leading zero symbols: putting any number of
    ["g"] in front of a byte string, valid or not, does not change the
    result. *)
Theorem decode54_leading_zeros (k : nat) (b : list byte) :
  decode54 (replicate k zero_symbol ++ b) = decode54 b.
Proof.
  unfold decode54. f_equal.
  induction k as [|k IH]; [done|]. cbn [replicate app decode54_loop].
  destruct (decide (decodeMap_at zero_symbol = xFF)) as [H|_]; [by vm_compute in H|].
  exact IH.
Qed.

Lemma Parse_canonical s :
  Forall (fun c => c ∈ alphabet) s -> 0 <= numeric_value s < 2 ^ 63 ->
  Parse (string_of_list_ascii s) = (numeric_value s, None).
Proof.
  intros Hs Hv. unfold Parse, bytes. rewrite list_ascii_of_string_of_list_ascii.
  rewrite decode54_valid by done.
  rewrite int64_wrap_id by (unfold is_int64; lia).
  destruct (decide (_ < 0)); [lia|done].
Qed.

(** X15. For every [int64] value [String] returns: the empty string when the
    ID is negative, and otherwise a non-empty string that [Parse] decodes
    back to the ID with no error. *)
Theorem String_total (id : ID) :
  is_int64 id ->
  exists s : string,
    String_ id = Ret s
    /\ (id < 0 -> s = EmptyString)
    /\ (0 <= id -> s <> EmptyString /\ Parse s = (id, None)).
Proof.
  unfold is_int64. intros Hint. unfold String_.
  destruct (decide (id < 0)) as [Hneg|Hpos].
  - rewrite base54_negative by done. cbn [obind]. exists EmptyString.
    split; [done|]. split; [done|lia].
  - destruct (base54_nonneg id ltac:(lia)) as (s & Hcan & Hs & Hval & Hlen & Hb).
    rewrite Hb. cbn [obind]. exists (string_of_list_ascii s).
    split; [done|]. split; [lia|]. intros _. split.
    + destruct s; [done|]. done.
    + rewrite <- Hval. apply Parse_canonical; [done|lia].
Qed.

Lemma String_total_witness :
  exists s : string,
    String_ 123123 = Ret s
    /\ (123123 < 0 -> s = EmptyString)
    /\ (0 <= 123123 -> s <> EmptyString /\ Parse s = (123123, None)).
Proof. apply (String_total 123123). unfold is_int64. lia. Defined.

(** X16. Two IDs in [0, 2^63) that [base54] encodes to the same string are
    equal. *)
Theorem base54_injective (a b : ID) (s : string) :
  0 <= a < 2 ^ 63 -> 0 <= b < 2 ^ 63 ->
  base54 a = Ret (s, None) -> base54 b = Ret (s, None) -> a = b.
Proof.
  intros Ha Hb Hea Heb.
  destruct (base54_nonneg a Ha) as (sa & _ & _ & Hva & _ & Ha').
  destruct (base54_nonneg b Hb) as (sb & _ & _ & Hvb & _ & Hb').
  rewrite Ha' in Hea. rewrite Hb' in Heb.
  injection Hea as Hea. injection Heb as Heb.
  assert (sa = sb) as ->.
  { rewrite <- (list_ascii_of_string_of_list_ascii sa),
      <- (list_ascii_of_string_of_list_ascii sb). congruence. }
  congruence.
Qed.

Lemma base54_injective_witness : 123123 = 123123.
Proof.
  apply (base54_injective 123123 123123 "6vF"); (lia || by vm_compute).
Defined.

(** X17. The string that [base54] returns for an ID in [0, 2^63) has as many
    symbols as the ID has digits in base 54: the ID is below 54 to the power
    of the length and, from 54 on, at least 54 to the power of the length
    minus one. *)
Theorem base54_length (id : ID) (s : string) :
  0 <= id < 2 ^ 63 ->
  base54 id = Ret (s, None) ->
  id < 54 ^ Z.of_nat (String.length s)
  /\ (54 <= id -> 54 ^ (Z.of_nat (String.length s) - 1) <= id).
Proof.
  intros Hid He.
  destruct (base54_nonneg id Hid) as (l & Hcan & Hl & Hval & Hlen & Hb).
  rewrite Hb in He. injection He as <-.
  rewrite <- bytes_length. unfold bytes. rewrite list_ascii_of_string_of_list_ascii.
  pose proof (numeric_value_bounds l Hl) as Hbd. split; [lia|].
  intros Hge. destruct l as [|c0 cs]; [done|].
  destruct (decide (cs = [])) as [->|Hne].
  { rewrite numeric_value_cons in Hval. cbn [foldl] in Hval.
    apply Forall_cons in Hl as [Hc0 _]. pose proof (position_alphabet c0 Hc0). lia. }
  pose proof (canonical_lower c0 cs Hcan Hl Hne) as Hlow.
  cbn [length]. replace (Z.of_nat (S (length cs)) - 1) with (Z.of_nat (length cs)) by lia.
  lia.
Qed.

Lemma base54_length_witness :
  9223372036854775807 < 54 ^ 11 /\ (54 <= 9223372036854775807 -> 54 ^ (11 - 1) <= 9223372036854775807).
Proof.
  apply (base54_length 9223372036854775807 "EZNmktHEz5H"); [lia|by vm_compute].
Defined.

Lemma foldl_insert_lookup {A} (x : A) n :
  forall (m : list A) k j,
  foldl (fun m i => <[i := x]> m) m (seq k n) !! j
  = if decide (k <= j < k + n /\ j < length m)%nat then Some x else m !! j.
Proof.
  induction n as [|n IH]; intros m k j; cbn [seq foldl].
  - destruct (decide _) as [[? _]|_]; [lia|done].
  - rewrite IH, length_insert.
    destruct (decide (k = j)) as [->|Hne].
    + destruct (decide (j < length m)%nat) as [Hlt|Hge].
      * rewrite list_lookup_insert_eq by done.
        repeat destruct (decide _); try done; lia.
      * rewrite list_insert_ge by lia.
        repeat destruct (decide _); try done; lia.
    + rewrite list_lookup_insert_ne by done.
      repeat destruct (decide _); try done; lia.
Qed.

Lemma foldl_insert_all {A} (x : A) (m : list A) :
  foldl (fun m i => <[i := x]> m) m (seq 0 (length m)) = replicate (length m) x.
Proof.
  apply list_eq. intros j. rewrite foldl_insert_lookup.
  destruct (decide _) as [[_ Hlt]|Hn].
  - symmetry. by apply lookup_replicate_2.
  - rewrite !lookup_ge_None_2; [done|rewrite length_replicate; lia|lia].
Qed.

(** X18. [initDecodeMap] builds the same table from any 256 entries it
    starts with: every entry is overwritten before the alphabet is entered,
    so running it again changes nothing. *)
Theorem initDecodeMap_any (m : list byte) :
  length m = 256%nat -> initDecodeMap m = decodeMap.
Proof.
  intros Hlen. unfold initDecodeMap. rewrite foldl_insert_all, Hlen.
  by vm_compute.
Qed.

Lemma initDecodeMap_any_witness : initDecodeMap decodeMap = decodeMap.
Proof. apply (initDecodeMap_any decodeMap). reflexivity. Defined.

(** ** JSON *)

Lemma index_head {A} (x : A) (l : list A) : index (x :: l) 0 = Ret x.
Proof. reflexivity. Qed.

Lemma index_last {A} (l : list A) (x : A) :
  index (l ++ [x]) (Z.of_nat (length l)) = Ret x.
Proof.
  unfold index. destruct (decide _); [|lia].
  by rewrite Nat2Z.id, lookup_app_r, Nat.sub_diag.
Qed.

Lemma slice_inner {A} (x y : A) (l : list A) :
  slice (x :: l ++ [y]) 1 (Z.of_nat (length l) + 1) = Ret l.
Proof.
  unfold slice. cbn [length]. rewrite length_app. cbn [length].
  destruct (decide _); [|lia].
  replace (Z.to_nat (Z.of_nat (length l) + 1 - 1)) with (length l) by lia.
  change (Z.to_nat 1) with 1%nat. cbn [drop]. by rewrite drop_0, take_app_length.
Qed.

Lemma UnmarshalJSON_envelope id0 (inner : list byte) :
  inner <> [] ->
  UnmarshalJSON id0 (quote :: inner ++ [quote])
  = Ret (match Parse (string_of_list_ascii inner) with
         | (_, Some err) => (id0, Some err)
         | (parsed, None) => (parsed, None)
         end).
Proof.
  intros Hne. unfold UnmarshalJSON.
  assert (Hlen : Z.of_nat (length (quote :: inner ++ [quote]))
                 = Z.of_nat (length inner) + 2).
  { cbn [length]. rewrite length_app. cbn [length]. lia. }
  rewrite Hlen.
  destruct (decide (_ < 3)) as [Hlt|_].
  { destruct inner; [done|]. cbn [length] in Hlt. lia. }
  rewrite index_head. cbn [obind].
  destruct (decide (quote <> quote)); [done|].
  replace (Z.of_nat (length inner) + 2 - 1)
    with (Z.of_nat (length (quote :: inner))) by (cbn [length]; lia).
  rewrite (app_comm_cons inner [quote] quote), index_last. cbn [obind].
  destruct (decide (quote <> quote)); [done|].
  rewrite <- app_comm_cons.
  replace (Z.of_nat (length (quote :: inner))) with (Z.of_nat (length inner) + 1)
    by (cbn [length]; lia).
  rewrite slice_inner. cbn [obind].
  by destruct (Parse (string_of_list_ascii inner)) as [parsed [err|]].
Qed.

Lemma UnmarshalJSON_malformed id0 (b : list byte) :
  (forall inner, inner <> [] -> b <> quote :: inner ++ [quote]) ->
  UnmarshalJSON id0 b = Ret (Invalid, Some ErrorInvalidJson).
Proof.
  intros Hshape. unfold UnmarshalJSON.
  destruct (decide (_ < 3)) as [|Hlen]; [done|].
  destruct b as [|x b]; [cbn [length] in Hlen; lia|].
  rewrite index_head. cbn [obind].
  destruct (decide (x <> quote)) as [|Hx]; [done|].
  assert (x = quote) as -> by (by destruct (decide (x = quote))).
  destruct b as [|y b _] using rev_ind; [cbn [length] in Hlen; lia|].
  replace (Z.of_nat (length (quote :: b ++ [y])) - 1)
    with (Z.of_nat (length (quote :: b)))
    by (cbn [length]; rewrite length_app; cbn [length]; lia).
  rewrite (app_comm_cons b [y] quote), index_last. cbn [obind].
  destruct (decide (y <> quote)) as [|Hy]; [done|].
  assert (y = quote) as -> by (by destruct (decide (y = quote))).
  exfalso. apply (Hshape b); [|done].
  intros ->. cbn [length app] in Hlen. lia.
Qed.

Lemma envelope_dec (b : list byte) :
  (exists inner, inner <> [] /\ b = quote :: inner ++ [quote])
  \/ (forall inner, inner <> [] -> b <> quote :: inner ++ [quote]).
Proof.
  destruct b as [|x b]; [by right|].
  destruct b as [|y b _] using rev_ind.
  { right. intros inner Hne [= _ H]. by destruct inner. }
  destruct (decide (x = quote)) as [->|Hx]; [|right; by intros inner _ [= ? _]].
  destruct (decide (y = quote)) as [->|Hy].
  - destruct (decide (b = [])) as [->|Hb]; [|left; by exists b].
    right. intros inner Hne [= H]. destruct inner as [|? [|? ?]]; done.
  - right. intros inner _ [= H]. apply app_inj_tail in H as [_ ?]. done.
Qed.

(** X19. [UnmarshalJSON] on fewer than three bytes, or on bytes that do not
    start or do not end with a double quote, sets the receiver to the
    sentinel and returns [ErrorInvalidJson], without panicking and without
    decoding. *)
Theorem UnmarshalJSON_rejects (id0 : ID) (b : list byte) :
  (length b < 3)%nat \/ head b <> Some quote \/ last b <> Some quote ->
  UnmarshalJSON id0 b = Ret (Invalid, Some ErrorInvalidJson).
Proof.
  intros Hbad. apply UnmarshalJSON_malformed. intros inner Hne ->.
  destruct Hbad as [Hlen|[Hhead|Hlast]].
  - cbn [length] in Hlen. rewrite length_app in Hlen. cbn [length] in Hlen.
    destruct inner; [done|]. cbn [length] in Hlen. lia.
  - by apply Hhead.
  - apply Hlast. by rewrite (app_comm_cons inner [quote] quote), last_snoc.
Qed.

Lemma UnmarshalJSON_rejects_witness :
  UnmarshalJSON 123123 (bytes "6vF") = Ret (Invalid, Some ErrorInvalidJson).
Proof.
  apply (UnmarshalJSON_rejects 123123 (bytes "6vF")).
  right. left. by vm_compute.
Defined.

(** X20. When the bytes between the quotes do not decode, [UnmarshalJSON]
    returns the error of [Parse], which is [ErrorInvalidByte] or
    [ErrorInvalid], and leaves the receiver at the value it had: it is not
    set to the sentinel. *)
Theorem UnmarshalJSON_decode_error (id0 : ID) (inner : list byte) (err : SnowflakeError) :
  inner <> [] ->
  snd (Parse (string_of_list_ascii inner)) = Some err ->
  UnmarshalJSON id0 (quote :: inner ++ [quote]) = Ret (id0, Some err)
  /\ (err = ErrorInvalidByte \/ err = ErrorInvalid).
Proof.
  intros Hne Herr. rewrite UnmarshalJSON_envelope by done.
  unfold Parse, bytes in *. rewrite list_ascii_of_string_of_list_ascii in *.
  destruct (decode54 inner) as [parsed e] eqn:Hd. cbn [snd] in Herr. subst e.
  split; [done|].
  unfold decode54 in Hd. destruct (decode54_loop inner 0) as [r|].
  - destruct (decide (r < 0)); injection Hd as _ Hd; [right; congruence|done].
  - injection Hd as _ Hd. left. congruence.
Qed.

Lemma UnmarshalJSON_decode_error_witness :
  UnmarshalJSON 123123 (quote :: bytes "6v!F" ++ [quote])
  = Ret (123123, Some ErrorInvalidByte).
Proof.
  apply (UnmarshalJSON_decode_error 123123 (bytes "6v!F") ErrorInvalidByte).
  - by vm_compute.
  - by vm_compute.
Defined.

(** X21. [UnmarshalJSON] never panics, and on every input it ends in one of
    three ways: no error and a receiver in [0, 2^63); [ErrorInvalidJson] and
    the receiver at the sentinel; or a decoding error and the receiver
    unchanged. *)
Theorem UnmarshalJSON_outcomes (id0 : ID) (b : list byte) :
  exists (id : ID) (err : error),
    UnmarshalJSON id0 b = Ret (id, err)
    /\ (err = None -> 0 <= id < 2 ^ 63)
    /\ (err = Some ErrorInvalidJson -> id = Invalid)
    /\ (err <> None -> err <> Some ErrorInvalidJson -> id = id0).
Proof.
  destruct (envelope_dec b) as [(inner & Hne & ->)|Hbad].
  - rewrite UnmarshalJSON_envelope by done.
    unfold Parse, bytes. rewrite list_ascii_of_string_of_list_ascii.
    destruct (decode54_outcomes inner) as [[_ [[He Hr]|He]]|[_ He]].
    + destruct (decode54 inner) as [parsed e]. cbn [fst snd] in *. subst e.
      exists parsed, None. split; [done|]. split; [done|]. split; [done|].
      intros H. by destruct H.
    + rewrite He. exists id0, (Some ErrorInvalid). naive_solver.
    + rewrite He. exists id0, (Some ErrorInvalidByte). naive_solver.
  - rewrite UnmarshalJSON_malformed by done.
    exists Invalid, (Some ErrorInvalidJson). naive_solver.
Qed.

(** X22. Let [json.Marshal] put a string over the alphabet, or the empty
    string, between double quotes. Then for every [int64] value
    [MarshalJSON] succeeds, and [UnmarshalJSON] of its output gives the ID
    back with no error when the ID is non-negative, and the sentinel with
    [ErrorInvalidJson] when it is negative. *)
Theorem JSON_roundtrip (json_Marshal : string -> list byte * error) (id0 id : ID) :
  (forall s : string,
      Forall (fun c => c ∈ alphabet) (bytes s) ->
      json_Marshal s = (quote :: bytes s ++ [quote], None)) ->
  is_int64 id ->
  exists b : list byte,
    MarshalJSON json_Marshal id = Ret (b, None)
    /\ UnmarshalJSON id0 b
       = Ret (if decide (0 <= id) then (id, None)
              else (Invalid, Some ErrorInvalidJson)).
Proof.
  intros HM Hint. unfold is_int64 in Hint. unfold MarshalJSON, String_.
  destruct (decide (0 <= id)) as [Hpos|Hneg].
  - destruct (base54_nonneg id ltac:(lia)) as (s & Hcan & Hs & Hval & Hlen & Hb).
    rewrite Hb. cbn [obind].
    rewrite HM by (unfold bytes; by rewrite list_ascii_of_string_of_list_ascii).
    unfold bytes. rewrite list_ascii_of_string_of_list_ascii.
    exists (quote :: s ++ [quote]). split; [done|].
    rewrite UnmarshalJSON_envelope by (by destruct s).
    rewrite <- Hval at 1. rewrite Parse_canonical by (done || lia). by rewrite Hval.
  - rewrite base54_negative by lia. cbn [obind].
    rewrite HM by constructor. exists [quote; quote]. split; [done|].
    by vm_compute.
Qed.

Lemma JSON_roundtrip_witness :
  exists b : list byte,
    MarshalJSON json_Marshal_plain 123123 = Ret (b, None)
    /\ UnmarshalJSON Invalid b
       = Ret (if decide (0 <= 123123) then (123123, None)
              else (Invalid, Some ErrorInvalidJson)).
Proof.
  apply (JSON_roundtrip json_Marshal_plain Invalid 123123).
  - intros s _. reflexivity.
  - unfold is_int64. lia.
Defined.

(** X23. IDs assembled from fields within their ranges are ordered by
    timestamp first: an earlier timestamp gives a smaller ID whatever the
    machine identifiers and sequence numbers are. *)
Theorem pack_time_ordered (t t' m m' s s' : Z) :
  timestamp_ok t -> timestamp_ok t' ->
  0 <= m < 512 -> 0 <= m' < 512 -> 0 <= s < 4096 -> 0 <= s' < 4096 ->
  t < t' -> pack t m s < pack t' m' s'.
Proof.
  unfold timestamp_ok, bitsTimestamp. intros Ht Ht' Hm Hm' Hs Hs' Hlt.
  rewrite !pack_sum by done. lia.
Qed.

Lemma pack_time_ordered_witness : pack 6 511 4095 < pack 7 0 0.
Proof.
  apply (pack_time_ordered 6 7 511 0 4095 0);
    unfold timestamp_ok, bitsTimestamp; lia.
Defined.

(** X24. [Time] is monotone on the non-negative IDs: a smaller ID never has
    a later time. *)
Theorem Time_monotone (id id' : ID) :
  0 <= id -> id <= id' -> id' < 2 ^ 63 -> Time id <= Time id'.
Proof.
  intros H0 Hle Hlt. unfold Time, bitsMachineID, bitsMachineSequence, Epoch.
  change (9 + 12) with 21. rewrite !Z.shiftr_div_pow2 by lia.
  assert (0 <= id `div` 2 ^ 21 <= id' `div` 2 ^ 21).
  { split; [apply Z.div_pos; lia|apply Z.div_le_mono; lia]. }
  assert (id' `div` 2 ^ 21 < 2 ^ 42) by (apply Z.div_lt_upper_bound; lia).
  rewrite !int64_wrap_id by (unfold is_int64; lia). lia.
Qed.

Lemma Time_monotone_witness : Time 14036992 <= Time 14036993.
Proof. apply (Time_monotone 14036992 14036993); lia. Defined.
